(** * The fetch protocol service of js-libp2p

    A shallow embedding of [src/fetch/index.ts] (class [FetchService]):
    the lookup registry ([_getLookupFunction], [registerLookupFunction],
    [unregisterLookupFunction]), the lifecycle ([start], [stop]), the
    outbound flow ([fetch]) and the inbound flow ([handleMessage]).

    Calls to collaborators (connection manager, registrar, streams, the
    protobuf and length-prefix codecs, timers) are effects: every call is
    appended to a trace, and what the collaborator answers is given by the
    [Environment].  A rejected promise and a thrown exception are the same
    thing here, [Throw]; a cancellation shows as the pending call throwing. *)

From Stdlib Require Import ZArith Strings.Byte.
From stdpp Require Import base decidable option list strings.

Local Open Scope string_scope.
Local Open Scope list_scope.

(** ** JavaScript values *)

(** [Uint8Array]: a sequence of bytes. *)
Definition Uint8Array : Type := list byte.

(** [key.startsWith(prefix)]: the characters of [prefix] are the first
    characters of [key], compared one by one. *)
Fixpoint startsWith (key prefix : string) {struct prefix} : bool :=
  match prefix with
  | EmptyString => true
  | String p prefix' =>
      match key with
      | EmptyString => false
      | String k key' =>
          if decide (k = p) then startsWith key' prefix' else false
      end
  end.

(** ** [Map<string, V>]

    A JavaScript [Map] iterates in insertion order, so it is a list of
    entries, oldest first.  [set] on a key that is present replaces the
    value where it stands; on a new key it appends. *)
Abbreviation Map V := (list (string * V)).

Section JsMap.
Context {V : Type}.

Definition Map_new : Map V := [].

Definition Map_keys (m : Map V) : list string := m.*1.

Fixpoint Map_get (m : Map V) (k : string) : option V :=
  match m with
  | [] => None
  | (k', v) :: m' => if decide (k' = k) then Some v else Map_get m' k
  end.

Fixpoint Map_has (m : Map V) (k : string) : bool :=
  match m with
  | [] => false
  | (k', _) :: m' => if decide (k' = k) then true else Map_has m' k
  end.

Fixpoint Map_set (m : Map V) (k : string) (v : V) : Map V :=
  match m with
  | [] => [(k, v)]
  | (k', v') :: m' =>
      if decide (k' = k) then (k, v) :: m' else (k', v') :: Map_set m' k v
  end.

(** [delete] removes the entry of the key; the other entries keep their
    order. *)
Definition Map_delete (m : Map V) (k : string) : Map V :=
  filter (λ e, e.1 ≠ k) m.

(** What every [Map] satisfies: no key occurs twice. *)
Definition Map_wf (m : Map V) : Prop := NoDup (Map_keys m).
End JsMap.

(** ** Errors *)

(** The entries of [codes] ([../errors.js]) that [index.ts] names. *)
Inductive codes : Type :=
  | ERR_INVALID_MESSAGE
  | ERR_INVALID_PARAMETERS
  | ERR_KEY_ALREADY_EXISTS.

(** An [Error] object; [code] is absent on errors that carry none. *)
Record Error : Type := mkError { message : string; code : option codes }.

(** [errCode(new Error(message), code)] *)
Definition errCode (msg : string) (c : codes) : Error :=
  {| message := msg; code := Some c |}.

(** How a call ends: it returns a value or it throws. *)
Inductive Outcome (A : Type) : Type :=
  | Return (a : A)
  | Throw (e : Error).
Arguments Return {A} a.
Arguments Throw {A} e.

(** Letter case folded to lower case, to compare a message with a
    description of it. *)
Definition lower_ascii (c : Ascii.ascii) : Ascii.ascii :=
  let n := Ascii.nat_of_ascii c in
  if (65 <=? n)%nat && (n <=? 90)%nat then Ascii.ascii_of_nat (n + 32) else c.

Fixpoint toLowerCase (s : string) : string :=
  match s with
  | EmptyString => EmptyString
  | String c s' => String (lower_ascii c) (toLowerCase s')
  end.

(** ** Configuration and messages *)

Record FetchServiceInit : Type := {
  protocolPrefix : option string;
  maxInboundStreams : Z;
  maxOutboundStreams : Z;
  timeout : Z
}.

(** The options [start] hands to the registrar. *)
Record StreamHandlerOptions : Type := {
  opt_maxInboundStreams : Z;
  opt_maxOutboundStreams : Z
}.

Record FetchRequest : Type := { identifier : string }.

(** [new TimeoutController(ms)] *)
Record TimeoutController : Type := { ms : Z }.

(** ** What the module takes from outside *)

(** The types and constants [index.ts] imports.  Peer ids, connections,
    streams and the abort signals a caller of [fetch] may hold are objects
    of the collaborators, opaque here.  A [LookupFunction] is a function
    object, and [!==] compares identity.  [StatusCode] is
    [FetchResponse.StatusCode] of [./pb/proto.js] with its three members;
    a decoded message may carry any value of the type.  The two protocol
    constants are those of [./constants.js]. *)
Class Imports : Type := {
  PeerId : Type;
  Connection : Type;
  Stream : Type;
  UserSignal : Type;
  LookupFunction : Type;
  LookupFunction_eq_dec :: EqDecision LookupFunction;
  StatusCode : Type;
  StatusCode_eq_dec :: EqDecision StatusCode;
  OK : StatusCode;
  NOT_FOUND : StatusCode;
  ERROR : StatusCode;
  PROTOCOL_NAME : string;
  PROTOCOL_VERSION : string
}.

Section Data.

Context {imports : Imports}.

(** The signal threaded through stream operations: the caller's, or
    [timeoutController.signal]. *)
Inductive AbortSignal : Type :=
  | signal_of_caller (s : UserSignal)
  | signal_of_controller (tc : TimeoutController).

Record AbortOptions : Type := { signal : option UserSignal }.

Record FetchResponse : Type := { status : StatusCode; data : Uint8Array }.

Record IncomingStreamData : Type := {
  stream : Stream;
  connection : Connection
}.

(** The fields of a [FetchService]; [components] is in the [Environment]. *)
Record FetchService : Type := {
  protocol : string;
  lookupFunctions : Map LookupFunction;
  started : bool;
  init : FetchServiceInit
}.

(** Calls to the collaborators, in the order they are made. *)
Inductive Event : Type :=
  | Ev_handle (proto : string) (options : StreamHandlerOptions)
  | Ev_unhandle (proto : string)
  | Ev_openConnection (peer : PeerId) (options : AbortOptions)
  | Ev_new_TimeoutController (tc : TimeoutController)
  | Ev_setMaxListeners (sig : AbortSignal)
  | Ev_newStream (conn : Connection) (protocols : list string)
      (sig : AbortSignal) (opened : Outcome Stream)
  | Ev_abortableDuplex (st : Stream) (sig : AbortSignal)
  | Ev_duplex (st : Stream) (sig : AbortSignal) (written : list Uint8Array)
  | Ev_clear (tc : TimeoutController)
  | Ev_close (st : Stream)
  | Ev_first (st : Stream)
  | Ev_lookup (lookup : LookupFunction) (key : string)
  | Ev_sink (st : Stream) (written : list Uint8Array)
  | Ev_log_error (err : Error).

End Data.

(** What the collaborators and the imported functions answer.  Each is
    called at most once in a run of a flow, so a function of the arguments
    is as general as an answer that changes with time. *)
Class Environment {imports : Imports} : Type := {
  (** [components.getConnectionManager().openConnection(peer, options)] *)
  openConnection : PeerId → AbortOptions → Outcome Connection;
  (** [connection.newStream(protocols, { signal })] *)
  newStream : Connection → list string → AbortSignal → Outcome Stream;
  (** [components.getRegistrar().handle] and [.unhandle] *)
  registrar_handle : string → StreamHandlerOptions → Outcome unit;
  registrar_unhandle : string → Outcome unit;
  (** [setMaxListeners] of [events]; it fails on old runtimes. *)
  setMaxListeners : AbortSignal → Outcome unit;
  (** The protobuf codecs of [./pb/proto.js]. *)
  FetchRequest_encode : FetchRequest → Uint8Array;
  FetchRequest_decode : Uint8Array → Outcome FetchRequest;
  FetchResponse_encode : FetchResponse → Uint8Array;
  FetchResponse_decode : Uint8Array → Outcome FetchResponse;
  (** [lp.encode()] on one message: the frame that carries it. *)
  lp_encode : Uint8Array → Uint8Array;
  (** In [fetch]: the frames are handed to the sink of the abortable
      duplex and [first] awaits the first frame [lp.decode()] finds on
      its source; [None] when the stream ends before one is there. *)
  duplex_first :
    Stream → AbortSignal → list Uint8Array → Outcome (option Uint8Array);
  (** In [handleMessage]: [first] on the frames decoded from the stream. *)
  stream_first : Stream → Outcome (option Uint8Array);
  (** In [handleMessage]: the sink of the stream consumes the frames. *)
  stream_sink : Stream → list Uint8Array → Outcome unit;
  (** In [handleMessage]: how the sink of the stream ends when the source
      it reads throws before it yields a frame.  A sink may reject with
      that error or with another one, or catch it, reset the stream and
      resolve. *)
  stream_sink_failed : Stream → Error → Outcome unit;
  (** Calling a lookup function and awaiting its promise. *)
  invoke : LookupFunction → string → Outcome (option Uint8Array);
  (** [new TextEncoder().encode] and [new TextDecoder().decode] *)
  TextEncoder_encode : string → Uint8Array;
  TextDecoder_decode : Uint8Array → string
}.

Section FetchService.

Context {imports : Imports} {env : Environment}.

(** *** State and effects *)

Record State : Type := { this : FetchService; trace : list Event }.

Definition M (A : Type) : Type := State → Outcome A * State.

#[global] Instance M_ret : MRet M := λ A a s, (Return a, s).

#[global] Instance M_bind : MBind M := λ A B k m s,
  match m s with
  | (Return a, s') => k a s'
  | (Throw e, s') => (Throw e, s')
  end.

Definition throw {A} (e : Error) : M A := λ s, (Throw e, s).

(** [try { m }], with the way [m] ended as a value. *)
Definition attempt {A} (m : M A) : M (Outcome A) := λ s,
  let '(r, s') := m s in (Return r, s').

(** [await] on a promise that settled as [r].  A synchronous call that
    may throw goes the same way, and so does the end of a [finally], which
    hands on the way its [try] was left. *)
Definition await {A} (r : Outcome A) : M A := λ s, (r, s).

(** [promise.catch(handler)] *)
Definition catch {A} (m : M A) (handler : Error → M A) : M A :=
  r ← attempt m;
  match r with
  | Return a => mret a
  | Throw e => handler e
  end.

(** [promise.finally(onFinally)] *)
Definition finally {A} (m : M A) (onFinally : M unit) : M A :=
  r ← attempt m;
  onFinally;;
  await r.

Definition emit (ev : Event) : M unit := λ s,
  (Return tt, {| this := this s; trace := trace s ++ [ev] |}).

Definition get_this : M FetchService := λ s, (Return (this s), s).

Definition with_lookupFunctions (self : FetchService)
    (m : Map LookupFunction) : FetchService :=
  {| protocol := protocol self;
     lookupFunctions := m;
     started := started self;
     init := init self |}.

Definition with_started (self : FetchService) (b : bool) : FetchService :=
  {| protocol := protocol self;
     lookupFunctions := lookupFunctions self;
     started := b;
     init := init self |}.

(** [this.lookupFunctions] is updated in place. *)
Definition set_lookupFunctions (m : Map LookupFunction) : M unit := λ s,
  (Return tt, {| this := with_lookupFunctions (this s) m; trace := trace s |}).

(** [this.started = b] *)
Definition set_started (b : bool) : M unit := λ s,
  (Return tt, {| this := with_started (this s) b; trace := trace s |}).

(** *** The class *)

Definition constructor (i : FetchServiceInit) : FetchService :=
  {| started := false;
     protocol := "/" +:+ default "libp2p" (protocolPrefix i) +:+ "/"
                 +:+ PROTOCOL_NAME +:+ "/" +:+ PROTOCOL_VERSION;
     lookupFunctions := Map_new;
     init := i |}.

Fixpoint getLookupFunction_loop (m : Map LookupFunction)
    (prefixes : list string) (key : string) : option LookupFunction :=
  match prefixes with
  | [] => None
  | prefix :: rest =>
      if startsWith key prefix then Map_get m prefix
      else getLookupFunction_loop m rest key
  end.

Definition _getLookupFunction (self : FetchService) (key : string)
    : option LookupFunction :=
  getLookupFunction_loop (lookupFunctions self)
    (Map_keys (lookupFunctions self)) key.

Definition registerLookupFunction (prefix : string)
    (lookup : LookupFunction) : M unit :=
  self ← get_this;
  if Map_has (lookupFunctions self) prefix then
    throw (errCode ("Fetch protocol handler for key prefix '" +:+ prefix
                    +:+ "' already registered") ERR_KEY_ALREADY_EXISTS)
  else
    set_lookupFunctions (Map_set (lookupFunctions self) prefix lookup).

Definition unregisterLookupFunction (prefix : string)
    (lookup : option LookupFunction) : M unit :=
  self ← get_this;
  let delete := set_lookupFunctions (Map_delete (lookupFunctions self) prefix) in
  match lookup with
  | Some lookup =>
      let existingLookup := Map_get (lookupFunctions self) prefix in
      if decide (existingLookup ≠ Some lookup) then mret tt else delete
  | None => delete
  end.


(** **** Inbound flow *)

(** The body of the generator stage of [handleMessage], after the request
    was decoded: the response that is yielded. *)
Definition respond (request : FetchRequest) : M FetchResponse :=
  self ← get_this;
  match _getLookupFunction self (identifier request) with
  | Some lookup =>
      emit (Ev_lookup lookup (identifier request));;
      found ← await (invoke lookup (identifier request));
      match found with
      | Some value => mret {| status := OK; data := value |}
      | None => mret {| status := NOT_FOUND; data := [] |}
      end
  | None =>
      let errmsg := TextEncoder_encode
        ("No lookup function registered for key: " +:+ identifier request) in
      mret {| status := ERROR; data := errmsg |}
  end.

(** The stages of the pipeline before the sink of the stream: one frame
    is read and the generator yields one frame, the encoded response,
    unless a stage throws; then nothing is yielded. *)
Definition handleMessage_source (incoming : IncomingStreamData)
    : M (list Uint8Array) :=
  emit (Ev_first (stream incoming));;
  buf ← await (stream_first (stream incoming));
  match buf with
  | None => throw (errCode "No data received" ERR_INVALID_MESSAGE)
  | Some buf =>
      request ← await (FetchRequest_decode buf);
      response ← respond request;
      mret [lp_encode (FetchResponse_encode response)]
  end.

(** [await pipe(..., stream)] awaits the promise of [stream.sink(source)],
    where [source] is the stages above.  So [handleMessage], which has no
    [catch] of its own, ends as the sink ends: on the frame it was given,
    or on the error its source threw. *)
Definition handleMessage (incoming : IncomingStreamData) : M unit :=
  source ← attempt (handleMessage_source incoming);
  match source with
  | Return frames =>
      emit (Ev_sink (stream incoming) frames);;
      await (stream_sink (stream incoming) frames)
  | Throw e => await (stream_sink_failed (stream incoming) e)
  end.

(** **** Lifecycle *)

(** The handler [start] gives to the registrar. *)
Definition stream_handler (incoming : IncomingStreamData) : M unit :=
  finally
    (catch (handleMessage incoming) (λ err, emit (Ev_log_error err)))
    (emit (Ev_close (stream incoming))).

Definition start : M unit :=
  self ← get_this;
  let options :=
    {| opt_maxInboundStreams := maxInboundStreams (init self);
       opt_maxOutboundStreams := maxOutboundStreams (init self) |} in
  emit (Ev_handle (protocol self) options);;
  await (registrar_handle (protocol self) options);;
  set_started true.

Definition stop : M unit :=
  self ← get_this;
  emit (Ev_unhandle (protocol self));;
  await (registrar_unhandle (protocol self));;
  set_started false.

Definition isStarted : M bool :=
  self ← get_this;
  mret (started self).

(** **** Outbound flow *)

(** The last stage of the pipeline of [fetch], on what [first] gave. *)
Definition read_response (buf : option Uint8Array)
    : M (option Uint8Array) :=
  match buf with
  | None => throw (errCode "No data received" ERR_INVALID_MESSAGE)
  | Some buf =>
      response ← await (FetchResponse_decode buf);
      if decide (status response = OK) then
        mret (Some (data response))
      else if decide (status response = NOT_FOUND) then
        mret None
      else if decide (status response = ERROR) then
        let errmsg := TextDecoder_decode (data response) in
        throw (errCode ("Error in fetch protocol response: " +:+ errmsg)
                 ERR_INVALID_PARAMETERS)
      else
        throw (errCode "Unknown response status" ERR_INVALID_MESSAGE)
  end.

(** The [try] block of [fetch] after the stream was opened. *)
Definition exchange (st : Stream) (sig : AbortSignal) (key : string)
    : M (option Uint8Array) :=
  emit (Ev_abortableDuplex st sig);;
  let frames :=
    [lp_encode (FetchRequest_encode {| identifier := key |})] in
  emit (Ev_duplex st sig frames);;
  buf ← await (duplex_first st sig frames);
  read_response buf.

Definition fetch (peer : PeerId) (key : string) (options : AbortOptions)
    : M (option Uint8Array) :=
  self ← get_this;
  emit (Ev_openConnection peer options);;
  conn ← await (openConnection peer options);
  '(timeoutController, sig) ←
    match signal options with
    | Some s => mret (None, signal_of_caller s)
    | None =>
        let tc := {| ms := timeout (init self) |} in
        emit (Ev_new_TimeoutController tc);;
        catch (emit (Ev_setMaxListeners (signal_of_controller tc));;
               await (setMaxListeners (signal_of_controller tc)))
              (λ _, mret tt);;
        mret (Some tc, signal_of_controller tc)
    end;
  (* try *)
  let opened := newStream conn [protocol self] sig in
  emit (Ev_newStream conn [protocol self] sig opened);;
  result ←
    match opened with
    | Return st => attempt (exchange st sig key)
    | Throw e => mret (Throw e)
    end;
  (* finally *)
  match timeoutController with
  | Some tc => emit (Ev_clear tc)
  | None => mret tt
  end;;
  match opened with
  | Return st => emit (Ev_close st)
  | Throw _ => mret tt
  end;;
  await result.


(** A caller of the registry: one call of one of its two methods. *)
Inductive RegistryCall : Type :=
  | Register (prefix : string) (lookup : LookupFunction)
  | Unregister (prefix : string) (lookup : option LookupFunction).

Definition registry_call (c : RegistryCall) : M unit :=
  match c with
  | Register prefix lookup => registerLookupFunction prefix lookup
  | Unregister prefix lookup => unregisterLookupFunction prefix lookup
  end.

(** The state after a sequence of calls, whether they throw or not. *)
Definition registry_calls (calls : list RegistryCall) (s : State) : State :=
  foldl (λ s c, (registry_call c s).2) s calls.

(** The message of the error [registerLookupFunction] throws. *)
Definition already_registered (prefix : string) : Error :=
  errCode ("Fetch protocol handler for key prefix '" +:+ prefix
           +:+ "' already registered") ERR_KEY_ALREADY_EXISTS.

(** *** Reading traces *)

(** The signal a call was given, for the calls that take one. *)
Definition event_signal (ev : Event) : option AbortSignal :=
  match ev with
  | Ev_setMaxListeners sig
  | Ev_newStream _ _ sig _
  | Ev_abortableDuplex _ sig
  | Ev_duplex _ sig _ => Some sig
  | _ => None
  end.

(** The timeout controller a call creates or clears. *)
Definition event_controller (ev : Event) : option TimeoutController :=
  match ev with
  | Ev_new_TimeoutController tc | Ev_clear tc => Some tc
  | _ => None
  end.

Definition is_openConnection (ev : Event) : bool :=
  match ev with
  | Ev_openConnection _ _ => true
  | _ => false
  end.

(** Every timeout controller created in the trace is cleared later in it,
    and every stream opened in it is closed later in it. *)
Fixpoint released (calls : list Event) : Prop :=
  match calls with
  | [] => True
  | Ev_new_TimeoutController tc :: rest => Ev_clear tc ∈ rest ∧ released rest
  | Ev_newStream _ _ _ (Return st) :: rest =>
      Ev_close st ∈ rest ∧ released rest
  | _ :: rest => released rest
  end.

(** The signal of one run of [fetch]. *)
Definition fetch_signal (self : FetchService) (options : AbortOptions)
    : AbortSignal :=
  match signal options with
  | Some s => signal_of_caller s
  | None => signal_of_controller {| ms := timeout (init self) |}
  end.

(** The frames [fetch] sends for a key. *)
Definition request_frames (key : string) : list Uint8Array :=
  [lp_encode (FetchRequest_encode {| identifier := key |})].

(** The calls of one run of [fetch], in order ([fetch_run] below). *)
Definition fetch_calls (self : FetchService) (peer : PeerId) (key : string)
    (options : AbortOptions) : list Event :=
  let sig := fetch_signal self options in
  let tc := {| ms := timeout (init self) |} in
  Ev_openConnection peer options ::
  match openConnection peer options with
  | Throw _ => []
  | Return conn =>
      let opened := newStream conn [protocol self] sig in
      match signal options with
      | Some _ => []
      | None => [Ev_new_TimeoutController tc; Ev_setMaxListeners sig]
      end
      ++ Ev_newStream conn [protocol self] sig opened ::
      match opened with
      | Return st =>
          [Ev_abortableDuplex st sig; Ev_duplex st sig (request_frames key)]
      | Throw _ => []
      end
      ++ match signal options with
         | Some _ => []
         | None => [Ev_clear tc]
         end
      ++ match opened with
         | Return st => [Ev_close st]
         | Throw _ => []
         end
  end.

(** *** More on traces, environments and callers *)

(** A call that uses a stream that was opened. *)
Definition is_stream_use (ev : Event) : bool :=
  match ev with
  | Ev_abortableDuplex _ _ | Ev_duplex _ _ _ | Ev_close _ => true
  | _ => false
  end.

(** A call of the [finally] block of [fetch]. *)
Definition is_cleanup (ev : Event) : bool :=
  match ev with
  | Ev_clear _ | Ev_close _ => true
  | _ => false
  end.

(** The timeout controllers a list of calls creates, in order. *)
Fixpoint controllers_created (calls : list Event)
    : list TimeoutController :=
  match calls with
  | [] => []
  | Ev_new_TimeoutController tc :: rest => tc :: controllers_created rest
  | _ :: rest => controllers_created rest
  end.

(** The streams a list of calls opens, in order: a call of [newStream]
    that throws opens none. *)
Fixpoint streams_opened (calls : list Event) : list Stream :=
  match calls with
  | [] => []
  | Ev_newStream _ _ _ (Return st) :: rest => st :: streams_opened rest
  | _ :: rest => streams_opened rest
  end.

(** The same environment with another [setMaxListeners]. *)
Definition with_setMaxListeners (f : AbortSignal → Outcome unit)
    : Environment :=
  {| openConnection := openConnection;
     newStream := newStream;
     registrar_handle := registrar_handle;
     registrar_unhandle := registrar_unhandle;
     setMaxListeners := f;
     FetchRequest_encode := FetchRequest_encode;
     FetchRequest_decode := FetchRequest_decode;
     FetchResponse_encode := FetchResponse_encode;
     FetchResponse_decode := FetchResponse_decode;
     lp_encode := lp_encode;
     duplex_first := duplex_first;
     stream_first := stream_first;
     stream_sink := stream_sink;
     stream_sink_failed := stream_sink_failed;
     invoke := invoke;
     TextEncoder_encode := TextEncoder_encode;
     TextDecoder_decode := TextDecoder_decode |}.

(** A user of a service: one call of one of its public methods, or the
    registrar delivering a stream to the handler of [start]. *)
Inductive ServiceCall : Type :=
  | Call_registry (c : RegistryCall)
  | Call_start
  | Call_stop
  | Call_isStarted
  | Call_fetch (peer : PeerId) (key : string) (options : AbortOptions)
  | Call_stream (incoming : IncomingStreamData).

(** The state after one call, whether it throws or not. *)
Definition service_call (c : ServiceCall) (s : State) : State :=
  match c with
  | Call_registry c => (registry_call c s).2
  | Call_start => (start s).2
  | Call_stop => (stop s).2
  | Call_isStarted => (isStarted s).2
  | Call_fetch peer key options => (fetch peer key options s).2
  | Call_stream incoming => (stream_handler incoming s).2
  end.

Definition service_calls (calls : list ServiceCall) (s : State) : State :=
  foldl (λ s c, service_call c s) s calls.

Definition is_newStream (ev : Event) : bool :=
  match ev with
  | Ev_newStream _ _ _ _ => true
  | _ => false
  end.

(** The exchange on the stream: the request goes out, a response comes in. *)
Definition is_exchange (ev : Event) : bool :=
  match ev with
  | Ev_duplex _ _ _ => true
  | _ => false
  end.

End FetchService.

(** ** A sample world

    Concrete collaborators, to run the flows: peers, connections, streams,
    signals and lookup functions are numbers; a connection to peer [0]
    cannot be opened; the stream to peer [n] is stream [n], and what the
    remote side does depends on the stream. *)
Module Sample.

Definition imports : Imports :=
  {| PeerId := nat;
     Connection := nat;
     Stream := nat;
     UserSignal := nat;
     LookupFunction := nat;
     LookupFunction_eq_dec := Nat.eq_dec;
     StatusCode := nat;
     StatusCode_eq_dec := Nat.eq_dec;
     OK := 0;
     NOT_FOUND := 1;
     ERROR := 2;
     PROTOCOL_NAME := "fetch";
     PROTOCOL_VERSION := "0.0.1" |}.

#[local] Existing Instance imports.

Definition config : FetchServiceInit :=
  {| protocolPrefix := None;
     maxInboundStreams := 1;
     maxOutboundStreams := 1;
     timeout := 10000 |}.

Definition failure (msg : string) : Error :=
  {| message := msg; code := None |}.

Definition dial (peer : nat) (options : AbortOptions) : Outcome nat :=
  match peer with
  | 0 => Throw (failure "unreachable")
  | _ => Return peer
  end.

Definition open_stream (conn : nat) (protocols : list string)
    (sig : AbortSignal) : Outcome nat :=
  Return conn.

Definition handle (proto : string) (options : StreamHandlerOptions)
    : Outcome unit :=
  if decide (proto = "/libp2p/fetch/0.0.1") then Return tt
  else Throw (failure "no such protocol").

Definition unhandle (proto : string) : Outcome unit :=
  Throw (failure "registrar is gone").

Definition max_listeners (sig : AbortSignal) : Outcome unit :=
  Throw (failure "setMaxListeners is not a function").

Definition status_byte (status : nat) : byte :=
  match status with
  | 0 => x00
  | 1 => x01
  | 2 => x02
  | _ => xff
  end.

Definition encode_request (request : FetchRequest) : Uint8Array :=
  String.list_byte_of_string (identifier request).

Definition decode_request (buf : Uint8Array) : Outcome FetchRequest :=
  Return {| identifier := String.string_of_list_byte buf |}.

Definition encode_response (response : FetchResponse) : Uint8Array :=
  status_byte (status response) :: data response.

Definition decode_response (buf : Uint8Array) : Outcome FetchResponse :=
  match buf with
  | [] => Throw (failure "truncated message")
  | b :: rest => Return {| status := Byte.to_nat b; data := rest |}
  end.

Definition frame (message : Uint8Array) : Uint8Array :=
  default x00 (Byte.of_nat (length message)) :: message.

(** The first frame the remote side of stream [st] answers with. *)
Definition reply (st : nat) (sig : AbortSignal) (written : list Uint8Array)
    : Outcome (option Uint8Array) :=
  match st with
  | 1 => Return (Some [x00; x01; x02; x03])
  | 2 => Return (Some [x01])
  | 3 => Return (Some (x02 :: String.list_byte_of_string "nope"))
  | 4 => Return (Some [x07])
  | 5 => Return None
  | _ => Throw (failure "The operation was aborted")
  end.

(** The first frame that arrives on inbound stream [st]. *)
Definition arrival (st : nat) : Outcome (option Uint8Array) :=
  match st with
  | 1 => Return (Some (String.list_byte_of_string "user/42"))
  | 2 => Return (Some (String.list_byte_of_string "user/99"))
  | 3 => Return (Some (String.list_byte_of_string "unknown/1"))
  | 4 => Return (Some (String.list_byte_of_string "fail/1"))
  | 8 => Return (Some (String.list_byte_of_string "fail/1"))
  | _ => Return None
  end.

Definition accept (st : nat) (written : list Uint8Array) : Outcome unit :=
  Return tt.

(** The sink of stream [8] catches the error of its source, resets the
    stream and resolves; the other sinks reject with the error. *)
Definition sink_on_failure (st : nat) (e : Error) : Outcome unit :=
  match st with
  | 8 => Return tt
  | _ => Throw e
  end.

(** Lookup function [1] knows one user; every other function throws. *)
Definition call (lookup : nat) (key : string)
    : Outcome (option Uint8Array) :=
  match lookup with
  | 1 => if decide (key = "user/42") then Return (Some [x01; x02; x03])
         else Return None
  | _ => Throw (failure "lookup failed")
  end.

Definition environment : Environment :=
  {| openConnection := dial;
     newStream := open_stream;
     registrar_handle := handle;
     registrar_unhandle := unhandle;
     setMaxListeners := max_listeners;
     FetchRequest_encode := encode_request;
     FetchRequest_decode := decode_request;
     FetchResponse_encode := encode_response;
     FetchResponse_decode := decode_response;
     lp_encode := frame;
     duplex_first := reply;
     stream_first := arrival;
     stream_sink := accept;
     stream_sink_failed := sink_on_failure;
     invoke := call;
     TextEncoder_encode := String.list_byte_of_string;
     TextDecoder_decode := String.string_of_list_byte |}.

#[local] Existing Instance environment.

(** A new service, and the same service with two prefixes registered. *)
Definition fresh : State :=
  {| this := constructor config; trace := [] |}.

Definition serving : State :=
  registry_calls [Register "user/" 1; Register "fail/" 2] fresh.

(** A service whose protocol the sample registrar does not know. *)
Definition stranger : State :=
  {| this := constructor {| protocolPrefix := Some "other";
                            maxInboundStreams := 1;
                            maxOutboundStreams := 1;
                            timeout := 10000 |};
     trace := [] |}.

Definition inbound (st : nat) : IncomingStreamData :=
  {| stream := st; connection := 1 |}.

Definition no_signal : AbortOptions := {| signal := None |}.

Definition with_signal (u : nat) : AbortOptions := {| signal := Some u |}.

Definition run_fetch (peer : nat) (key : string) (options : AbortOptions)
    : M (option Uint8Array) :=
  fetch peer key options.

Definition run_handleMessage (incoming : IncomingStreamData) : M unit :=
  handleMessage incoming.

Definition run_stream_handler (incoming : IncomingStreamData) : M unit :=
  stream_handler incoming.

Definition run_start : M unit := start.

End Sample.

(** ** Properties *)

Section Properties.

Context {imports : Imports} {env : Environment}.

(** *** Strings and maps *)

Lemma startsWith_app (prefix rest : string) :
  startsWith (prefix +:+ rest) prefix = true.
Proof.
  induction prefix as [|c prefix IH]; simpl; [done|].
  by rewrite decide_True.
Qed.

Lemma startsWith_inv (key prefix : string) :
  startsWith key prefix = true → ∃ rest, key = prefix +:+ rest.
Proof.
  revert key. induction prefix as [|p prefix IH]; intros key Hk; simpl in *.
  - by exists key.
  - destruct key as [|k key]; [done|].
    destruct (decide (k = p)) as [->|]; [|done].
    destruct (IH _ Hk) as [rest ->]. by exists rest.
Qed.

Lemma startsWith_spec (key prefix : string) :
  startsWith key prefix = true ↔ ∃ rest, key = prefix +:+ rest.
Proof.
  split; [apply startsWith_inv|]. intros [rest ->]. apply startsWith_app.
Qed.

Lemma Map_has_keys {V} (m : Map V) (k : string) :
  Map_has m k = true ↔ k ∈ Map_keys m.
Proof.
  induction m as [|[k' v] m IH]; simpl.
  - split; [done|]. by intros ?%elem_of_nil.
  - rewrite elem_of_cons. destruct (decide (k' = k)) as [->|Hne].
    + split; auto.
    + rewrite IH. split; [auto|]. by intros [->|].
Qed.

Lemma Map_has_false_keys {V} (m : Map V) (k : string) :
  Map_has m k = false ↔ k ∉ Map_keys m.
Proof.
  rewrite <-Map_has_keys. by destruct (Map_has m k).
Qed.

Lemma Map_get_None {V} (m : Map V) (k : string) :
  Map_has m k = false ↔ Map_get m k = None.
Proof.
  induction m as [|[k' v] m IH]; simpl; [done|].
  by destruct (decide (k' = k)).
Qed.

Lemma Map_wf_elem_of_get {V} (m : Map V) (k : string) (v : V) :
  Map_wf m → (k, v) ∈ m → Map_get m k = Some v.
Proof.
  unfold Map_wf, Map_keys.
  induction m as [|[k' v'] m IH]; simpl; intros Hwf Hin.
  - by apply elem_of_nil in Hin.
  - apply NoDup_cons in Hwf as [Hk' Hwf].
    apply elem_of_cons in Hin as [[= -> ->]|Hin].
    + by rewrite decide_True.
    + rewrite decide_False; [by apply IH|].
      intros ->. apply Hk'. apply list_elem_of_fmap. by exists (k, v).
Qed.

Lemma Map_set_absent {V} (m : Map V) (k : string) (v : V) :
  Map_has m k = false → Map_set m k v = m ++ [(k, v)].
Proof.
  induction m as [|[k' v'] m IH]; simpl; [done|].
  destruct (decide (k' = k)); [done|]. intros H. by rewrite IH.
Qed.

Lemma Map_get_set {V} (m : Map V) (k k' : string) (v : V) :
  Map_get (Map_set m k v) k' = if decide (k = k') then Some v else Map_get m k'.
Proof.
  induction m as [|[k0 v0] m IH]; simpl; [done|].
  destruct (decide (k0 = k)) as [->|Hne]; simpl.
  - by destruct (decide (k = k')).
  - destruct (decide (k0 = k')) as [->|].
    + by rewrite decide_False by done.
    + apply IH.
Qed.

Lemma Map_keys_set {V} (m : Map V) (k : string) (v : V) :
  Map_keys (Map_set m k v)
  = if Map_has m k then Map_keys m else Map_keys m ++ [k].
Proof.
  unfold Map_keys.
  induction m as [|[k0 v0] m IH]; cbn [Map_set Map_has]; [done|].
  destruct (decide (k0 = k)) as [->|Hne]; [done|].
  rewrite !fmap_cons, IH. by destruct (Map_has m k).
Qed.

Lemma Map_wf_set {V} (m : Map V) (k : string) (v : V) :
  Map_wf m → Map_wf (Map_set m k v).
Proof.
  unfold Map_wf. rewrite Map_keys_set.
  destruct (Map_has m k) eqn:Hhas; [done|].
  intros Hwf. apply NoDup_app. split_and!; [done| |apply NoDup_singleton].
  intros x Hx ->%list_elem_of_singleton.
  by apply Map_has_false_keys in Hhas.
Qed.

Lemma Map_get_delete {V} (m : Map V) (k k' : string) :
  Map_get (Map_delete m k) k' = if decide (k = k') then None else Map_get m k'.
Proof.
  unfold Map_delete.
  induction m as [|[k0 v0] m IH].
  - simpl. by destruct (decide (k = k')).
  - destruct (decide (k0 = k)) as [->|Hne].
    + rewrite filter_cons_False by (simpl; auto). rewrite IH. simpl.
      by destruct (decide (k = k')).
    + rewrite filter_cons_True by done. simpl. rewrite IH.
      destruct (decide (k = k')) as [->|]; [|done].
      by rewrite decide_False.
Qed.

Lemma Map_has_delete {V} (m : Map V) (k : string) :
  Map_has (Map_delete m k) k = false.
Proof.
  apply Map_get_None. rewrite Map_get_delete. by rewrite decide_True.
Qed.

Lemma Map_delete_absent {V} (m : Map V) (k : string) :
  Map_has m k = false → Map_delete m k = m.
Proof.
  unfold Map_delete.
  induction m as [|[k0 v0] m IH]; [done|]. simpl.
  destruct (decide (k0 = k)) as [->|Hne]; [done|].
  intros H. rewrite filter_cons_True by done. by rewrite IH.
Qed.

Lemma Map_wf_delete {V} (m : Map V) (k : string) :
  Map_wf m → Map_wf (Map_delete m k).
Proof.
  unfold Map_wf, Map_keys, Map_delete. intros Hwf.
  eapply sublist_NoDup; [exact Hwf|].
  apply fmap_sublist, sublist_filter.
Qed.


(** *** The lookup registry *)

Lemma getLookupFunction_loop_find (m entries : Map LookupFunction)
    (key : string) :
  getLookupFunction_loop m (Map_keys entries) key
  = e ← find (λ e, startsWith key e.1) entries; Map_get m e.1.
Proof.
  induction entries as [|[prefix lookup] entries IH]; simpl; [done|].
  by destruct (startsWith key prefix).
Qed.

Lemma Map_get_find (m : Map LookupFunction) (key : string)
    (e : string * LookupFunction) :
  find (λ e, startsWith key e.1) m = Some e → Map_get m e.1 = Some e.2.
Proof.
  induction m as [|[prefix lookup] m IH]; simpl; [done|].
  destruct (startsWith key prefix) eqn:Hp.
  - intros [= <-]. simpl. by rewrite decide_True.
  - intros Hfind. rewrite decide_False; [by apply IH|].
    intros ->. apply find_some in Hfind as [_ He]. congruence.
Qed.

Lemma getLookupFunction_find (self : FetchService) (key : string) :
  _getLookupFunction self key
  = snd <$> find (λ e, startsWith key e.1) (lookupFunctions self).
Proof.
  unfold _getLookupFunction. rewrite getLookupFunction_loop_find.
  destruct (find _ _) as [e|] eqn:Hfind; simpl; [|done].
  by rewrite (Map_get_find _ key e Hfind).
Qed.

Lemma find_first_match {A} (P : A → bool) (before after : list A) (x : A) :
  P x = true → (∀ y, y ∈ before → P y = false) →
  find P (before ++ x :: after) = Some x.
Proof.
  intros Hx. induction before as [|y before IH]; simpl; intros Hb.
  - by rewrite Hx.
  - rewrite (Hb y) by (apply elem_of_cons; by left).
    apply IH. intros z Hz. apply Hb, elem_of_cons. by right.
Qed.

Lemma find_no_match {A} (P : A → bool) (l : list A) :
  (∀ y, y ∈ l → P y = false) → find P l = None.
Proof.
  induction l as [|y l IH]; simpl; intros Hl; [done|].
  rewrite (Hl y) by (apply elem_of_cons; by left).
  apply IH. intros z Hz. apply Hl, elem_of_cons. by right.
Qed.

(** C1.  [_getLookupFunction] goes through the entries of the registry in
    insertion order and returns the lookup function of the first entry
    whose prefix the key starts with, character by character; when the key
    starts with no registered prefix it returns nothing.  On a new service
    with ["a"] registered and then ["ab"], the key ["abc"] resolves to the
    function registered for ["a"]. *)
Theorem getLookupFunction_first_registered_wins
    (self : FetchService) (key : string) :
  (∀ before prefix lookup after,
     lookupFunctions self = before ++ (prefix, lookup) :: after →
     startsWith key prefix = true →
     (∀ e, e ∈ before → startsWith key e.1 = false) →
     _getLookupFunction self key = Some lookup)
  ∧ ((∀ e, e ∈ lookupFunctions self → startsWith key e.1 = false) →
     _getLookupFunction self key = None)
  ∧ (∀ prefix,
       startsWith key prefix = true ↔ ∃ rest, key = prefix +:+ rest)
  ∧ (∀ i t for_a for_ab,
       let s0 := {| this := constructor i; trace := t |} in
       let s1 := (registerLookupFunction "a" for_a s0).2 in
       let s2 := (registerLookupFunction "ab" for_ab s1).2 in
       (registerLookupFunction "a" for_a s0).1 = Return tt
       ∧ (registerLookupFunction "ab" for_ab s1).1 = Return tt
       ∧ lookupFunctions (this s2) = [("a", for_a); ("ab", for_ab)]
       ∧ _getLookupFunction (this s2) "abc" = Some for_a).
Proof.
  split_and!.
  - intros before prefix lookup after Hreg Hp Hbefore.
    rewrite getLookupFunction_find, Hreg.
    by rewrite (find_first_match _ before after (prefix, lookup)).
  - intros Hnone. rewrite getLookupFunction_find.
    by rewrite find_no_match.
  - intros prefix. apply startsWith_spec.
  - intros i t for_a for_ab. by vm_compute.
Qed.

Lemma registerLookupFunction_present (prefix : string)
    (lookup : LookupFunction) (s : State) :
  Map_has (lookupFunctions (this s)) prefix = true →
  registerLookupFunction prefix lookup s
  = (Throw (already_registered prefix), s).
Proof.
  intros Hhas. unfold registerLookupFunction, mbind, M_bind, get_this.
  by rewrite Hhas.
Qed.

Lemma registerLookupFunction_absent (prefix : string)
    (lookup : LookupFunction) (s : State) :
  Map_has (lookupFunctions (this s)) prefix = false →
  registerLookupFunction prefix lookup s
  = (Return tt,
     {| this := with_lookupFunctions (this s)
                  (lookupFunctions (this s) ++ [(prefix, lookup)]);
        trace := trace s |}).
Proof.
  intros Hhas. unfold registerLookupFunction, mbind, M_bind, get_this.
  rewrite Hhas. unfold set_lookupFunctions. by rewrite Map_set_absent.
Qed.

Lemma unregisterLookupFunction_None (prefix : string) (s : State) :
  unregisterLookupFunction prefix None s
  = (Return tt,
     {| this := with_lookupFunctions (this s)
                  (Map_delete (lookupFunctions (this s)) prefix);
        trace := trace s |}).
Proof. done. Qed.

Lemma unregisterLookupFunction_same (prefix : string)
    (lookup : LookupFunction) (s : State) :
  Map_get (lookupFunctions (this s)) prefix = Some lookup →
  unregisterLookupFunction prefix (Some lookup) s
  = unregisterLookupFunction prefix None s.
Proof.
  intros Hget. unfold unregisterLookupFunction, mbind, M_bind, get_this.
  rewrite decide_False; [done|]. intros Hne. by apply Hne.
Qed.

Lemma unregisterLookupFunction_other (prefix : string)
    (lookup : LookupFunction) (s : State) :
  Map_get (lookupFunctions (this s)) prefix ≠ Some lookup →
  unregisterLookupFunction prefix (Some lookup) s = (Return tt, s).
Proof.
  intros Hget. unfold unregisterLookupFunction, mbind, M_bind, get_this.
  by rewrite decide_True.
Qed.

Lemma with_lookupFunctions_same (s : State) :
  {| this := with_lookupFunctions (this s) (lookupFunctions (this s));
     trace := trace s |} = s.
Proof. by destruct s as [[] ?]. Qed.

Lemma registry_call_wf (c : RegistryCall) (s : State) :
  Map_wf (lookupFunctions (this s)) →
  Map_wf (lookupFunctions (this (registry_call c s).2)).
Proof.
  intros Hwf. destruct c as [prefix lookup|prefix [lookup|]]; simpl.
  - destruct (Map_has (lookupFunctions (this s)) prefix) eqn:Hhas.
    + by rewrite registerLookupFunction_present.
    + rewrite registerLookupFunction_absent by done. simpl.
      rewrite <-Map_set_absent by done. by apply Map_wf_set.
  - destruct (decide (Map_get (lookupFunctions (this s)) prefix
                      = Some lookup)) as [Heq|Hne].
    + rewrite unregisterLookupFunction_same by done.
      by apply Map_wf_delete.
    + by rewrite unregisterLookupFunction_other.
  - by apply Map_wf_delete.
Qed.

Lemma registry_calls_wf (calls : list RegistryCall) (s : State) :
  Map_wf (lookupFunctions (this s)) →
  Map_wf (lookupFunctions (this (registry_calls calls s))).
Proof.
  revert s. induction calls as [|c calls IH]; intros s Hwf; [done|].
  apply IH. by apply registry_call_wf.
Qed.


Lemma registerLookupFunction_has (prefix : string)
    (lookup : LookupFunction) (s : State) :
  Map_has (lookupFunctions (this (registerLookupFunction prefix lookup s).2))
    prefix = true.
Proof.
  destruct (Map_has (lookupFunctions (this s)) prefix) eqn:Hhas.
  - by rewrite registerLookupFunction_present.
  - rewrite registerLookupFunction_absent by done. simpl.
    apply Map_has_keys. unfold Map_keys. rewrite fmap_app.
    apply elem_of_app. right. by apply list_elem_of_singleton.
Qed.

(** C3.  [registerLookupFunction] on a prefix that is registered throws
    the error coded [ERR_KEY_ALREADY_EXISTS] and changes nothing; on a
    prefix that is not registered it appends the entry and changes nothing
    else.  So no sequence of calls from a new service leaves two entries
    under one prefix, a second registration of a prefix throws, and after
    an unregistration that removes (no function given, or the registered
    one) the prefix registers again. *)
Theorem registerLookupFunction_exclusive
    (prefix : string) (lookup : LookupFunction) (s : State) :
  let registry := lookupFunctions (this s) in
  (Map_has registry prefix = true →
     registerLookupFunction prefix lookup s
     = (Throw (already_registered prefix), s)
     ∧ code (already_registered prefix) = Some ERR_KEY_ALREADY_EXISTS)
  ∧ (Map_has registry prefix = false →
     registerLookupFunction prefix lookup s
     = (Return tt,
        {| this := with_lookupFunctions (this s)
                     (registry ++ [(prefix, lookup)]);
           trace := trace s |}))
  ∧ (∀ i calls,
       let reached :=
         lookupFunctions
           (this (registry_calls calls
                    {| this := constructor i; trace := [] |})) in
       NoDup (Map_keys reached)
       ∧ ∀ p f g, (p, f) ∈ reached → (p, g) ∈ reached → f = g)
  ∧ (∀ other,
       let s1 := (registerLookupFunction prefix lookup s).2 in
       registerLookupFunction prefix other s1
       = (Throw (already_registered prefix), s1))
  ∧ (∀ guard,
       guard = None ∨ guard = Map_get registry prefix →
       let s1 := (unregisterLookupFunction prefix guard s).2 in
       registerLookupFunction prefix lookup s1
       = (Return tt,
          {| this := with_lookupFunctions (this s1)
                       (Map_delete registry prefix ++ [(prefix, lookup)]);
             trace := trace s |})).
Proof.
  intros registry. split_and!.
  - intros Hhas. split; [|done]. by apply registerLookupFunction_present.
  - apply registerLookupFunction_absent.
  - intros i calls reached.
    assert (Map_wf reached) as Hwf.
    { apply registry_calls_wf. simpl. apply NoDup_nil_2. }
    split; [done|]. intros p f g Hf Hg.
    apply (Map_wf_elem_of_get _ _ _ Hwf) in Hf, Hg. congruence.
  - intros other s1. apply registerLookupFunction_present.
    apply registerLookupFunction_has.
  - intros guard Hguard s1.
    assert (s1 = (unregisterLookupFunction prefix None s).2) as Hs1.
    { subst s1. destruct Hguard as [->| ->]; [done|].
      destruct (Map_get registry prefix) as [f|] eqn:Hget; [|done].
      by rewrite unregisterLookupFunction_same. }
    rewrite registerLookupFunction_absent.
    + by rewrite Hs1.
    + rewrite Hs1. simpl. apply Map_has_delete.
Qed.

(** C4.  [unregisterLookupFunction] with a function that is not the one
    stored at the prefix changes nothing; with the stored function, or with
    no function, it removes the entry of the prefix and leaves every other
    entry as it was; on a prefix that is not registered it changes nothing
    and does not throw. *)
Theorem unregisterLookupFunction_guarded (prefix : string) (s : State) :
  let registry := lookupFunctions (this s) in
  let removed :=
    {| this := with_lookupFunctions (this s) (Map_delete registry prefix);
       trace := trace s |} in
  (∀ lookup, Map_get registry prefix ≠ Some lookup →
     unregisterLookupFunction prefix (Some lookup) s = (Return tt, s))
  ∧ (∀ lookup, Map_get registry prefix = Some lookup →
     unregisterLookupFunction prefix (Some lookup) s = (Return tt, removed))
  ∧ unregisterLookupFunction prefix None s = (Return tt, removed)
  ∧ (Map_has (Map_delete registry prefix) prefix = false
     ∧ Map_get (Map_delete registry prefix) prefix = None
     ∧ Map_delete registry prefix = filter (λ e, e.1 ≠ prefix) registry
     ∧ ∀ other, other ≠ prefix →
         Map_get (Map_delete registry prefix) other = Map_get registry other)
  ∧ (Map_has registry prefix = false →
     ∀ guard, unregisterLookupFunction prefix guard s = (Return tt, s)).
Proof.
  intros registry removed. split_and!.
  - intros lookup Hget. by apply unregisterLookupFunction_other.
  - intros lookup Hget. by rewrite unregisterLookupFunction_same.
  - done.
  - apply Map_has_delete.
  - rewrite Map_get_delete. by rewrite decide_True.
  - done.
  - intros other Hne. rewrite Map_get_delete. by rewrite decide_False.
  - intros Hhas [lookup|].
    + apply unregisterLookupFunction_other.
      apply Map_get_None in Hhas. fold registry. by rewrite Hhas.
    + rewrite unregisterLookupFunction_None.
      rewrite Map_delete_absent by done.
      by rewrite with_lookupFunctions_same.
Qed.

(** *** Lifecycle *)

(** C9.  When the registrar's [handle] throws, [start] throws the same
    error and leaves the service as it was, so a flag that was [false]
    stays [false]; when [unhandle] throws, [stop] leaves the service as it
    was, so a flag that was [true] stays [true].  The flag is written only
    after the registrar's call returned. *)
Theorem started_changes_after_registrar_success (s : State) :
  let self := this s in
  let options :=
    {| opt_maxInboundStreams := maxInboundStreams (init self);
       opt_maxOutboundStreams := maxOutboundStreams (init self) |} in
  (∀ e, registrar_handle (protocol self) options = Throw e →
     (start s).1 = Throw e
     ∧ this (start s).2 = self
     ∧ (started self = false → started (this (start s).2) = false))
  ∧ (registrar_handle (protocol self) options = Return tt →
     (start s).1 = Return tt
     ∧ this (start s).2 = with_started self true)
  ∧ (∀ e, registrar_unhandle (protocol self) = Throw e →
     (stop s).1 = Throw e
     ∧ this (stop s).2 = self
     ∧ (started self = true → started (this (stop s).2) = true))
  ∧ (registrar_unhandle (protocol self) = Return tt →
     (stop s).1 = Return tt
     ∧ this (stop s).2 = with_started self false).
Proof.
  intros self options. subst self options.
  unfold start, stop, mbind, M_bind, get_this, emit, await, set_started.
  simpl. split_and!.
  - intros e ->. by simpl.
  - intros ->. by simpl.
  - intros e ->. by simpl.
  - intros ->. by simpl.
Qed.


(** *** Running the flows *)

Ltac run_flow :=
  unfold fetch, exchange, read_response, handleMessage, respond,
    stream_handler, start, stop, finally, catch, attempt, await, throw,
    emit, get_this, mbind, M_bind, mret, M_ret;
  simpl.

Ltac flat_trace := simpl; rewrite <-?app_assoc; simpl.

Lemma read_response_run (buf : option Uint8Array) (s s' : State) :
  read_response buf s = ((read_response buf s').1, s).
Proof. run_flow. by repeat case_match. Qed.

Lemma exchange_run (st : Stream) (sig : AbortSignal) (key : string)
    (s : State) :
  exchange st sig key s
  = (match duplex_first st sig (request_frames key) with
     | Return buf => (read_response buf s).1
     | Throw e => Throw e
     end,
     {| this := this s;
        trace := trace s ++ [Ev_abortableDuplex st sig;
                             Ev_duplex st sig (request_frames key)] |}).
Proof.
  unfold exchange, request_frames, mbind, M_bind, emit, await. simpl.
  destruct (duplex_first _ _ _) as [buf|e]; flat_trace; [|done].
  by rewrite (read_response_run buf _ s).
Qed.

(** One run of [fetch]: what it returns or throws, and the state after. *)
Lemma fetch_run (peer : PeerId) (key : string) (options : AbortOptions)
    (s : State) :
  fetch peer key options s
  = (match openConnection peer options with
     | Throw e => Throw e
     | Return conn =>
         let sig := fetch_signal (this s) options in
         match newStream conn [protocol (this s)] sig with
         | Throw e => Throw e
         | Return st =>
             match duplex_first st sig (request_frames key) with
             | Throw e => Throw e
             | Return buf => (read_response buf s).1
             end
         end
     end,
     {| this := this s;
        trace := trace s ++ fetch_calls (this s) peer key options |}).
Proof.
  unfold fetch_calls, fetch_signal, fetch, catch, attempt,
    mbind, M_bind, mret, M_ret, get_this, emit, await.
  simpl.
  destruct (openConnection peer options) as [conn|e]; [|done].
  destruct (signal options) as [u|]; simpl.
  - destruct (newStream conn _ _) as [st|e]; simpl; [|by flat_trace].
    rewrite exchange_run. flat_trace.
    destruct (duplex_first _ _ _) as [buf|e]; [|done].
    by rewrite (read_response_run buf _ s).
  - destruct (setMaxListeners _) as [[]|?]; simpl.
    all: destruct (newStream conn _ _) as [st|?]; simpl; [|by flat_trace].
    all: rewrite exchange_run; flat_trace.
    all: destruct (duplex_first _ _ _) as [buf|?]; [|done].
    all: by rewrite (read_response_run buf _ s).
Qed.

(** *** Outbound flow *)

Lemma read_response_decoded (buf : Uint8Array) (response : FetchResponse)
    (s : State) :
  FetchResponse_decode buf = Return response →
  (read_response (Some buf) s).1
  = if decide (status response = OK) then Return (Some (data response))
    else if decide (status response = NOT_FOUND) then Return None
    else if decide (status response = ERROR) then
      Throw (errCode ("Error in fetch protocol response: "
                      +:+ TextDecoder_decode (data response))
               ERR_INVALID_PARAMETERS)
    else Throw (errCode "Unknown response status" ERR_INVALID_MESSAGE).
Proof.
  intros Hdecode. unfold read_response, mbind, M_bind, await.
  rewrite Hdecode. by repeat case_decide.
Qed.

(** C2.  On a connection and a stream that opened: when the stream ends
    before a frame was read, [fetch] throws the error coded
    [ERR_INVALID_MESSAGE] with message "No data received" (which the
    specification quotes in lower case); when the frame decodes to a response,
    status [OK] returns its data, [NOT_FOUND] returns [null], [ERROR]
    throws the error coded [ERR_INVALID_PARAMETERS] whose message ends
    with the decoded text of the data, and any other status throws the
    error coded [ERR_INVALID_MESSAGE] with message "Unknown response
    status". *)
Theorem fetch_maps_response_status
    (peer : PeerId) (key : string) (options : AbortOptions) (s : State)
    (conn : Connection) (st : Stream) :
  let sig := fetch_signal (this s) options in
  NoDup [OK; NOT_FOUND; ERROR] →
  openConnection peer options = Return conn →
  newStream conn [protocol (this s)] sig = Return st →
  (duplex_first st sig (request_frames key) = Return None →
     ∃ e, (fetch peer key options s).1 = Throw e
          ∧ code e = Some ERR_INVALID_MESSAGE
          ∧ message e = "No data received"
          ∧ toLowerCase (message e) = "no data received")
  ∧ (∀ buf response,
       duplex_first st sig (request_frames key) = Return (Some buf) →
       FetchResponse_decode buf = Return response →
       (status response = OK →
          (fetch peer key options s).1 = Return (Some (data response)))
       ∧ (status response = NOT_FOUND →
          (fetch peer key options s).1 = Return None)
       ∧ (status response = ERROR →
          ∃ e, (fetch peer key options s).1 = Throw e
               ∧ code e = Some ERR_INVALID_PARAMETERS
               ∧ message e = "Error in fetch protocol response: "
                             +:+ TextDecoder_decode (data response))
       ∧ (status response ∉ [OK; NOT_FOUND; ERROR] →
          ∃ e, (fetch peer key options s).1 = Throw e
               ∧ code e = Some ERR_INVALID_MESSAGE
               ∧ message e = "Unknown response status"
               ∧ toLowerCase (message e) = "unknown response status")).
Proof.
  intros sig Hdistinct Hconn Hopen. rewrite fetch_run, Hconn. simpl.
  fold sig. rewrite Hopen.
  assert (OK ≠ NOT_FOUND ∧ OK ≠ ERROR ∧ NOT_FOUND ≠ ERROR) as (H1 & H2 & H3).
  { apply NoDup_cons in Hdistinct as [Hok Hdistinct].
    apply NoDup_cons in Hdistinct as [Hnf _].
    split_and!; intros Heq.
    - apply Hok. rewrite Heq. repeat constructor.
    - apply Hok. rewrite Heq. repeat constructor.
    - apply Hnf. rewrite Heq. repeat constructor. }
  split.
  - intros ->. by eexists.
  - intros buf response -> Hdecode.
    rewrite (read_response_decoded _ _ _ Hdecode). split_and!.
    + intros Hs. by rewrite decide_True.
    + intros Hs. rewrite Hs. by repeat case_decide.
    + intros Hs. rewrite Hs. repeat case_decide; try done. by eexists.
    + intros Hs. repeat case_decide.
      4: by eexists.
      all: exfalso; apply Hs.
      all: match goal with H : status _ = _ |- _ => rewrite H end.
      all: repeat constructor.
Qed.

Lemma released_app_r (before rest : list Event) :
  released (before ++ rest) → released rest.
Proof.
  induction before as [|ev before IH]; simpl; [done|].
  destruct ev as [| | | | |? ? ? []| | | | | | | |]; try exact IH.
  all: intros [_ Hrest]; exact (IH Hrest).
Qed.

Lemma released_controller (calls before rest : list Event)
    (tc : TimeoutController) :
  released calls →
  calls = before ++ Ev_new_TimeoutController tc :: rest →
  Ev_clear tc ∈ rest.
Proof.
  intros Hrel ->. apply released_app_r in Hrel. exact (proj1 Hrel).
Qed.

Lemma released_stream (calls before rest : list Event) (conn : Connection)
    (protocols : list string) (sig : AbortSignal) (st : Stream) :
  released calls →
  calls = before ++ Ev_newStream conn protocols sig (Return st) :: rest →
  Ev_close st ∈ rest.
Proof.
  intros Hrel ->. apply released_app_r in Hrel. exact (proj1 Hrel).
Qed.

Lemma fetch_calls_released (self : FetchService) (peer : PeerId)
    (key : string) (options : AbortOptions) :
  released (fetch_calls self peer key options).
Proof.
  unfold fetch_calls.
  destruct (openConnection peer options) as [conn|e]; [|done].
  destruct (signal options) as [u|]; simpl.
  all: destruct (newStream conn _ _) as [st|e]; simpl.
  all: split_and?; try done; repeat constructor.
Qed.

(** C7.  Whatever [fetch] returns or throws, in the calls it made every
    timeout controller it created is cleared afterwards and every stream
    it opened is closed afterwards. *)
Theorem fetch_always_cleans_up
    (peer : PeerId) (key : string) (options : AbortOptions) (s : State) :
  ∃ calls,
    trace (fetch peer key options s).2 = trace s ++ calls
    ∧ (∀ before tc rest,
         calls = before ++ Ev_new_TimeoutController tc :: rest →
         Ev_clear tc ∈ rest)
    ∧ (∀ before conn protocols sig st rest,
         calls = before ++ Ev_newStream conn protocols sig (Return st) :: rest →
         Ev_close st ∈ rest).
Proof.
  exists (fetch_calls (this s) peer key options).
  pose proof (fetch_calls_released (this s) peer key options) as Hrel.
  split_and!.
  - by rewrite fetch_run.
  - intros before tc rest. by apply released_controller.
  - intros before conn protocols sig st rest. by apply released_stream.
Qed.

Ltac each_call :=
  repeat (apply Forall_cons; split); try apply Forall_nil;
  simpl; intros; simplify_eq; try done.

(** C8.  With a signal in [options], [fetch] creates and clears no timeout
    controller and every call that takes a signal gets the caller's; with
    none, the only controller is the one created with [init.timeout] and
    every call that takes a signal gets that controller's signal.  Opening
    the stream is such a call in both cases, and once the stream is open
    so are wrapping it with [abortableDuplex] and running the pipeline
    over the wrapped stream: both are called, on that stream, with that
    signal. *)
Theorem fetch_signal_is_callers_or_timers
    (peer : PeerId) (key : string) (options : AbortOptions) (s : State) :
  ∃ calls,
    trace (fetch peer key options s).2 = trace s ++ calls
    ∧ (∀ u, signal options = Some u →
         let sig := signal_of_caller u in
         Forall (λ ev, event_controller ev = None) calls
         ∧ Forall (λ ev, ∀ sig', event_signal ev = Some sig' → sig' = sig)
             calls
         ∧ ∀ conn, openConnection peer options = Return conn →
             (∃ opened,
                Ev_newStream conn [protocol (this s)] sig opened ∈ calls)
             ∧ ∀ st, newStream conn [protocol (this s)] sig = Return st →
                 Ev_newStream conn [protocol (this s)] sig (Return st)
                   ∈ calls
                 ∧ Ev_abortableDuplex st sig ∈ calls
                 ∧ Ev_duplex st sig (request_frames key) ∈ calls)
    ∧ (signal options = None →
         let tc := {| ms := timeout (init (this s)) |} in
         let sig := signal_of_controller tc in
         Forall (λ ev, ∀ tc', event_controller ev = Some tc' → tc' = tc)
           calls
         ∧ Forall (λ ev, ∀ sig', event_signal ev = Some sig' → sig' = sig)
             calls
         ∧ ∀ conn, openConnection peer options = Return conn →
             Ev_new_TimeoutController tc ∈ calls
             ∧ (∃ opened,
                  Ev_newStream conn [protocol (this s)] sig opened ∈ calls)
             ∧ ∀ st, newStream conn [protocol (this s)] sig = Return st →
                 Ev_newStream conn [protocol (this s)] sig (Return st)
                   ∈ calls
                 ∧ Ev_abortableDuplex st sig ∈ calls
                 ∧ Ev_duplex st sig (request_frames key) ∈ calls).
Proof.
  exists (fetch_calls (this s) peer key options).
  split; [by rewrite fetch_run|].
  unfold fetch_calls, fetch_signal. split.
  - intros u ->.
    destruct (openConnection peer options) as [conn|e]; simpl.
    + destruct (newStream conn _ _) as [st|e] eqn:Hopened; simpl.
      all: split_and!; [by each_call..|].
      all: intros ? [= <-]; split; [eexists; repeat constructor|].
      all: rewrite Hopened; intros ? [= <-].
      split_and!; repeat constructor.
    + split_and!; by each_call.
  - intros ->.
    destruct (openConnection peer options) as [conn|e]; simpl.
    + destruct (newStream conn _ _) as [st|e] eqn:Hopened; simpl.
      all: split_and!; [by each_call..|].
      all: intros ? [= <-]; split_and!;
        [repeat constructor|eexists; repeat constructor|].
      all: rewrite Hopened; intros ? [= <-].
      split_and!; repeat constructor.
    + split_and!; by each_call.
Qed.

(** C10.  The first call of [fetch] is [openConnection], with the peer and
    the options the caller gave, and it is the only such call; when it
    throws, [fetch] throws the same error and calls nothing else.  Without
    a caller's signal, the timeout controller is created next, once the
    connection is there, and its signal goes to the calls on the stream
    that follow. *)
Theorem fetch_opens_connection_before_timer
    (peer : PeerId) (key : string) (options : AbortOptions) (s : State) :
  ∃ rest,
    trace (fetch peer key options s).2
    = trace s ++ Ev_openConnection peer options :: rest
    ∧ Forall (λ ev, is_openConnection ev = false) rest
    ∧ (∀ e, openConnection peer options = Throw e →
         rest = [] ∧ (fetch peer key options s).1 = Throw e)
    ∧ (signal options = None →
       ∀ conn, openConnection peer options = Return conn →
         let tc := {| ms := timeout (init (this s)) |} in
         let sig := signal_of_controller tc in
         ∃ after,
           rest = Ev_new_TimeoutController tc :: Ev_setMaxListeners sig
                  :: Ev_newStream conn [protocol (this s)] sig
                       (newStream conn [protocol (this s)] sig)
                  :: after
           ∧ Forall (λ ev, ∀ sig', event_signal ev = Some sig' → sig' = sig)
               after).
Proof.
  eexists. split; [by rewrite fetch_run|]. rewrite fetch_run. simpl.
  unfold fetch_signal. split_and!.
  - destruct (openConnection peer options) as [conn|e]; [|done].
    destruct (signal options) as [u|]; simpl.
    all: destruct (newStream conn _ _) as [st|e]; simpl; by each_call.
  - by intros e ->.
  - intros -> conn ->. eexists. split; [done|].
    destruct (newStream conn _ _) as [st|e]; simpl; by each_call.
Qed.

(** *** Inbound flow *)

(** One run of [handleMessage]: the sink ends it, on the frame of the
    response or on the error of the stage that threw. *)
Lemma handleMessage_run (incoming : IncomingStreamData) (s : State) :
  handleMessage incoming s
  = let st := stream incoming in
    let s0 := {| this := this s; trace := trace s ++ [Ev_first st] |} in
    match stream_first st with
    | Throw e => (stream_sink_failed st e, s0)
    | Return None =>
        (stream_sink_failed st
           (errCode "No data received" ERR_INVALID_MESSAGE), s0)
    | Return (Some buf) =>
        match FetchRequest_decode buf with
        | Throw e => (stream_sink_failed st e, s0)
        | Return request =>
            match respond request s0 with
            | (Return response, s1) =>
                let frames := [lp_encode (FetchResponse_encode response)] in
                (stream_sink st frames,
                 {| this := this s1;
                    trace := trace s1 ++ [Ev_sink st frames] |})
            | (Throw e, s1) => (stream_sink_failed st e, s1)
            end
        end
    end.
Proof.
  unfold handleMessage, handleMessage_source, attempt, mbind, M_bind,
    mret, M_ret, emit, await, throw.
  simpl.
  destruct (stream_first _) as [[buf|]|]; [|done..].
  destruct (FetchRequest_decode buf) as [request|]; [|done].
  by destruct (respond request _) as [[] ?].
Qed.

(** [handleMessage] once the request is decoded: the calls of [respond]
    come between the read and the write. *)
Lemma handleMessage_decoded (incoming : IncomingStreamData) (s : State)
    (buf : Uint8Array) (request : FetchRequest) :
  stream_first (stream incoming) = Return (Some buf) →
  FetchRequest_decode buf = Return request →
  handleMessage incoming s
  = let s0 := {| this := this s;
                 trace := trace s ++ [Ev_first (stream incoming)] |} in
    match respond request s0 with
    | (Return response, s1) =>
        let frames := [lp_encode (FetchResponse_encode response)] in
        (stream_sink (stream incoming) frames,
         {| this := this s1;
            trace := trace s1 ++ [Ev_sink (stream incoming) frames] |})
    | (Throw e, s1) => (stream_sink_failed (stream incoming) e, s1)
    end.
Proof.
  intros Hfirst Hdecode. rewrite handleMessage_run. simpl.
  by rewrite Hfirst, Hdecode.
Qed.

(** C5.  For a request that was read and decoded, [handleMessage] gives
    the sink of the stream exactly one frame, the encoded response: status
    [ERROR] with the encoded text "No lookup function registered for
    key: " and the identifier when no lookup function matches; status [OK]
    with the value when the matching function returns one; status
    [NOT_FOUND] with no data when it returns [null]. *)
Theorem handleMessage_builds_one_response
    (incoming : IncomingStreamData) (s : State)
    (buf : Uint8Array) (request : FetchRequest) :
  let st := stream incoming in
  let key := identifier request in
  let sends (response : FetchResponse) (calls : list Event) :=
    let frames := [lp_encode (FetchResponse_encode response)] in
    respond request s
    = (Return response, {| this := this s; trace := trace s ++ calls |})
    ∧ handleMessage incoming s
      = (stream_sink st frames,
         {| this := this s;
            trace := trace s ++ Ev_first st :: calls
                     ++ [Ev_sink st frames] |}) in
  stream_first st = Return (Some buf) →
  FetchRequest_decode buf = Return request →
  (_getLookupFunction (this s) key = None →
     sends {| status := ERROR;
              data := TextEncoder_encode
                        ("No lookup function registered for key: "
                         +:+ key) |} [])
  ∧ (∀ lookup value,
       _getLookupFunction (this s) key = Some lookup →
       invoke lookup key = Return (Some value) →
       sends {| status := OK; data := value |} [Ev_lookup lookup key])
  ∧ (∀ lookup,
       _getLookupFunction (this s) key = Some lookup →
       invoke lookup key = Return None →
       sends {| status := NOT_FOUND; data := [] |} [Ev_lookup lookup key]).
Proof.
  intros st key sends Hfirst Hdecode. subst st key sends.
  rewrite (handleMessage_decoded _ _ _ _ Hfirst Hdecode).
  unfold respond, mbind, M_bind, mret, M_ret, get_this, emit, await.
  simpl. split_and!.
  - intros ->. split; [|by flat_trace].
    rewrite app_nil_r. by destruct s.
  - intros lookup value -> ->. split; [done|]. by flat_trace.
  - intros lookup -> ->. split; [done|]. by flat_trace.
Qed.

(** C6.  When the matching lookup function throws, [handleMessage] does
    not catch the error and writes no response: the calls it made are the
    read and the lookup, and the error ends the source of the sink of the
    stream, so [handleMessage] ends as that sink ends.  With a sink that
    rejects with the error, [handleMessage] throws it and the handler
    installed by [start] logs it; with a sink that resolves,
    [handleMessage] returns.  When no lookup function matches, the sink is
    given a response of status [ERROR] instead.  However [handleMessage]
    ends, the last call of the handler closes the stream. *)
Theorem lookup_failure_is_left_to_the_sink
    (incoming : IncomingStreamData) (s : State)
    (buf : Uint8Array) (request : FetchRequest)
    (lookup : LookupFunction) (e : Error) :
  let st := stream incoming in
  let key := identifier request in
  let after (calls : list Event) :=
    {| this := this s;
       trace := trace s ++ [Ev_first st; Ev_lookup lookup key] ++ calls |} in
  stream_first st = Return (Some buf) →
  FetchRequest_decode buf = Return request →
  _getLookupFunction (this s) key = Some lookup →
  invoke lookup key = Throw e →
  handleMessage incoming s = (stream_sink_failed st e, after [])
  ∧ (stream_sink_failed st e = Throw e →
     handleMessage incoming s = (Throw e, after [])
     ∧ stream_handler incoming s
       = (Return tt, after [Ev_log_error e; Ev_close st]))
  ∧ (stream_sink_failed st e = Return tt →
     handleMessage incoming s = (Return tt, after [])
     ∧ stream_handler incoming s = (Return tt, after [Ev_close st]))
  ∧ (∀ s',
       _getLookupFunction (this s') key = None →
       let frames :=
         [lp_encode
            (FetchResponse_encode
               {| status := ERROR;
                  data := TextEncoder_encode
                            ("No lookup function registered for key: "
                             +:+ key) |})] in
       handleMessage incoming s'
       = (stream_sink st frames,
          {| this := this s';
             trace := trace s' ++ [Ev_first st; Ev_sink st frames] |}))
  ∧ (∀ incoming' s',
       let ended := handleMessage incoming' s' in
       stream_handler incoming' s'
       = (Return tt,
          {| this := this ended.2;
             trace := trace ended.2
                      ++ match ended.1 with
                         | Return _ => []
                         | Throw err => [Ev_log_error err]
                         end
                      ++ [Ev_close (stream incoming')] |})).
Proof.
  intros st key after Hfirst Hdecode Hlookup Hthrow. subst st key after.
  assert (handleMessage incoming s
          = (stream_sink_failed (stream incoming) e,
             {| this := this s;
                trace := trace s ++ [Ev_first (stream incoming);
                                     Ev_lookup lookup (identifier request)]
                         ++ [] |}))
    as Hrun.
  { rewrite (handleMessage_decoded _ _ _ _ Hfirst Hdecode).
    unfold respond, mbind, M_bind, get_this, emit, await. simpl.
    rewrite Hlookup. simpl. rewrite Hthrow. by flat_trace. }
  assert (∀ incoming' s',
    stream_handler incoming' s'
    = (Return tt,
       {| this := this (handleMessage incoming' s').2;
          trace := trace (handleMessage incoming' s').2
                   ++ match (handleMessage incoming' s').1 with
                      | Return _ => []
                      | Throw err => [Ev_log_error err]
                      end
                   ++ [Ev_close (stream incoming')] |})) as Hhandler.
  { intros incoming' s'.
    unfold stream_handler, finally, catch, attempt, mbind, M_bind,
      mret, M_ret, emit, await.
    destruct (handleMessage incoming' s') as [[[]|err] s1]; simpl; [done|].
    by flat_trace. }
  split_and!; [done| | | |done].
  - intros Hsink. rewrite Hhandler, Hrun, Hsink. split; [done|].
    by flat_trace.
  - intros Hsink. rewrite Hhandler, Hrun, Hsink. split; [done|].
    by flat_trace.
  - intros s' Hnone.
    rewrite (handleMessage_decoded _ _ _ _ Hfirst Hdecode).
    unfold respond, mbind, M_bind, mret, M_ret, get_this. simpl.
    rewrite Hnone. by flat_trace.
Qed.

(** *** More on the lookup registry *)

Lemma find_app_split {A} (P : A → bool) (l1 l2 : list A) :
  find P (l1 ++ l2)
  = match find P l1 with
    | Some x => Some x
    | None => find P l2
    end.
Proof.
  induction l1 as [|x l1 IH]; simpl; [done|]. by destruct (P x).
Qed.

Lemma find_filter_implied {A} (P : A → bool) (Q : A → Prop)
    `{!∀ x, Decision (Q x)} (l : list A) :
  (∀ x, P x = true → Q x) → find P (filter Q l) = find P l.
Proof.
  intros HPQ. induction l as [|x l IH]; [done|].
  destruct (decide (Q x)) as [HQ|HQ].
  - rewrite filter_cons_True by done. simpl. by rewrite IH.
  - rewrite filter_cons_False by done. simpl.
    destruct (P x) eqn:HP; [|done]. by destruct HQ; apply HPQ.
Qed.

Lemma find_is_Some {A} (P : A → bool) (l : list A) :
  is_Some (find P l) ↔ ∃ x, x ∈ l ∧ P x = true.
Proof.
  split.
  - intros [x Hx]. apply find_some in Hx as [Hin HP].
    exists x. split; [by apply list_elem_of_In|done].
  - intros (x & Hin & HP). destruct (find P l) eqn:Hfind; [done|].
    apply list_elem_of_In in Hin.
    pose proof (find_none _ _ Hfind x Hin). congruence.
Qed.

(** X1.  Registering a prefix never changes how a key that resolved
    before resolves: the new function gets exactly the keys that start
    with its prefix and resolved to nothing before. *)
Theorem register_has_lowest_priority
    (prefix : string) (lookup : LookupFunction) (s : State) (key : string) :
  _getLookupFunction (this (registerLookupFunction prefix lookup s).2) key
  = match _getLookupFunction (this s) key with
    | Some earlier => Some earlier
    | None => if startsWith key prefix then Some lookup else None
    end.
Proof.
  destruct (Map_has (lookupFunctions (this s)) prefix) eqn:Hhas.
  - rewrite registerLookupFunction_present by done. simpl.
    destruct (_getLookupFunction (this s) key) eqn:Hold; [done|].
    destruct (startsWith key prefix) eqn:Hp; [|done].
    rewrite getLookupFunction_find in Hold.
    apply Map_has_keys, list_elem_of_fmap in Hhas as ([p f] & -> & Hin).
    assert (is_Some (find (λ e, startsWith key e.1) (lookupFunctions (this s))))
      as [e He] by (apply find_is_Some; eauto).
    by rewrite He in Hold.
  - rewrite registerLookupFunction_absent by done.
    rewrite !getLookupFunction_find. simpl. rewrite find_app_split.
    destruct (find _ (lookupFunctions (this s))); simpl; [done|].
    by destruct (startsWith key prefix).
Qed.

(** X2.  Unregistering a prefix leaves the resolution of every key that
    does not start with it as it was, whatever the guard; and once the
    entry is removed, a key only resolves through another prefix that is
    still registered. *)
Theorem unregister_touches_only_its_prefix
    (prefix : string) (guard : option LookupFunction) (s : State)
    (key : string) :
  let registry := lookupFunctions (this s) in
  let after := this (unregisterLookupFunction prefix guard s).2 in
  (startsWith key prefix = false →
     _getLookupFunction after key = _getLookupFunction (this s) key)
  ∧ (guard = None ∨ guard = Map_get registry prefix →
     ∀ f, _getLookupFunction after key = Some f →
       ∃ other, other ≠ prefix ∧ (other, f) ∈ registry
                ∧ startsWith key other = true).
Proof.
  intros registry after.
  assert (guard = None ∨ guard = Map_get registry prefix →
          after = with_lookupFunctions (this s) (Map_delete registry prefix))
    as Hremoved.
  { subst after. intros [->| ->]; [done|].
    destruct (Map_get registry prefix) as [f|] eqn:Hget; [|done].
    by rewrite unregisterLookupFunction_same. }
  assert (startsWith key prefix = false →
          _getLookupFunction
            (with_lookupFunctions (this s) (Map_delete registry prefix)) key
          = _getLookupFunction (this s) key) as Hsame.
  { intros Hp. rewrite !getLookupFunction_find. simpl. f_equal.
    apply find_filter_implied. intros [p f] Hpf Heq. simpl in *.
    congruence. }
  split.
  - intros Hp. destruct guard as [f|]; [|by rewrite Hremoved; auto].
    destruct (decide (Map_get registry prefix = Some f)) as [Heq|Hne].
    + rewrite Hremoved by (right; done). by apply Hsame.
    + subst after. by rewrite unregisterLookupFunction_other.
  - intros Hguard f. rewrite (Hremoved Hguard), getLookupFunction_find.
    simpl. intros Hfind.
    destruct (find _ _) as [[other g]|] eqn:He; simplify_eq/=.
    apply find_some in He as [Hin Hp]. simpl in Hp.
    apply list_elem_of_In, list_elem_of_filter in Hin as [Hne Hin].
    by exists other.
Qed.

(** X3.  Registering a prefix that was not registered and unregistering
    it again, with no function or with the one just registered, gives
    back the state there was. *)
Theorem register_then_unregister_restores
    (prefix : string) (lookup : LookupFunction) (s : State)
    (guard : option LookupFunction) :
  Map_has (lookupFunctions (this s)) prefix = false →
  guard = None ∨ guard = Some lookup →
  unregisterLookupFunction prefix guard
    (registerLookupFunction prefix lookup s).2
  = (Return tt, s).
Proof.
  intros Hhas Hguard.
  rewrite registerLookupFunction_absent by done. simpl.
  set (s1 := {| this := _; trace := _ |}).
  assert (unregisterLookupFunction prefix guard s1
          = unregisterLookupFunction prefix None s1) as ->.
  { destruct Hguard as [->| ->]; [done|].
    apply unregisterLookupFunction_same. subst s1. simpl.
    rewrite <-Map_set_absent by done. rewrite Map_get_set.
    by rewrite decide_True. }
  rewrite unregisterLookupFunction_None. subst s1. simpl.
  unfold Map_delete. rewrite filter_app.
  rewrite filter_cons_False by (simpl; auto). rewrite filter_nil, app_nil_r.
  fold (Map_delete (lookupFunctions (this s)) prefix).
  rewrite Map_delete_absent by done.
  unfold with_lookupFunctions. simpl. by destruct s as [[] ?].
Qed.

(** X4.  The empty key resolves to what is registered under the empty
    prefix and to nothing else; and once the empty prefix is registered
    every key resolves to some function, to the one of the empty prefix
    when that was registered first. *)
Theorem empty_key_and_empty_prefix (self : FetchService) :
  _getLookupFunction self "" = Map_get (lookupFunctions self) ""
  ∧ (Map_has (lookupFunctions self) "" = true →
     ∀ key, is_Some (_getLookupFunction self key))
  ∧ (∀ lookup rest key,
       lookupFunctions self = ("", lookup) :: rest →
       _getLookupFunction self key = Some lookup).
Proof.
  split_and!.
  - rewrite getLookupFunction_find.
    induction (lookupFunctions self) as [|[p f] m IH]; simpl; [done|].
    destruct p as [|c p]; simpl; repeat case_decide; try done; apply IH.
  - intros Hhas key. rewrite getLookupFunction_find.
    apply Map_has_keys, list_elem_of_fmap in Hhas as ([p f] & Hp & Hin).
    simpl in Hp. subst p. apply fmap_is_Some, find_is_Some.
    by exists ("", f).
  - intros lookup rest key Hreg. by rewrite getLookupFunction_find, Hreg.
Qed.

(** X5.  [_getLookupFunction] only returns a function that is registered
    under a prefix the key starts with, and it returns one exactly when
    there is a registered prefix the key starts with. *)
Theorem getLookupFunction_sound_and_complete
    (self : FetchService) (key : string) :
  (∀ lookup, _getLookupFunction self key = Some lookup →
     ∃ prefix, (prefix, lookup) ∈ lookupFunctions self
               ∧ startsWith key prefix = true)
  ∧ (is_Some (_getLookupFunction self key)
     ↔ ∃ prefix, prefix ∈ Map_keys (lookupFunctions self)
                 ∧ startsWith key prefix = true).
Proof.
  rewrite getLookupFunction_find. split.
  - intros lookup Hfind.
    destruct (find _ _) as [[prefix f]|] eqn:He; simplify_eq/=.
    apply find_some in He as [Hin Hp]. exists prefix.
    split; [by apply list_elem_of_In|done].
  - rewrite fmap_is_Some, find_is_Some. split.
    + intros ([p f] & Hin & Hp). exists p. split; [|done].
      apply list_elem_of_fmap. by exists (p, f).
    + intros (p & Hin & Hp).
      apply list_elem_of_fmap in Hin as ([p' f] & -> & Hin). eauto.
Qed.

(** *** More on the inbound flow *)

Lemma respond_run (request : FetchRequest) (s : State) :
  respond request s
  = match _getLookupFunction (this s) (identifier request) with
    | Some lookup =>
        (match invoke lookup (identifier request) with
         | Return (Some value) => Return {| status := OK; data := value |}
         | Return None => Return {| status := NOT_FOUND; data := [] |}
         | Throw e => Throw e
         end,
         {| this := this s;
            trace := trace s ++ [Ev_lookup lookup (identifier request)] |})
    | None =>
        (Return {| status := ERROR;
                   data := TextEncoder_encode
                             ("No lookup function registered for key: "
                              +:+ identifier request) |}, s)
    end.
Proof.
  unfold respond, mbind, M_bind, mret, M_ret, get_this, emit, await. simpl.
  destruct (_getLookupFunction _ _) as [lookup|]; [|done]. simpl.
  by destruct (invoke _ _) as [[]|].
Qed.

Lemma handleMessage_this (incoming : IncomingStreamData) (s : State) :
  this (handleMessage incoming s).2 = this s.
Proof.
  rewrite handleMessage_run. simpl.
  destruct (stream_first _) as [[buf|]|]; [|done..].
  destruct (FetchRequest_decode buf) as [request|]; [|done].
  rewrite respond_run.
  destruct (_getLookupFunction _ _) as [lookup|]; [|done].
  by destruct (invoke _ _) as [[]|].
Qed.

Lemma stream_handler_this (incoming : IncomingStreamData) (s : State) :
  this (stream_handler incoming s).2 = this s.
Proof.
  pose proof (handleMessage_this incoming s) as Hthis.
  unfold stream_handler, finally, catch, attempt, mbind, M_bind, mret,
    M_ret, emit, await.
  by destruct (handleMessage incoming s) as [[[]|err] s1].
Qed.

(** X6.  When the stream ends before a request frame arrives, the error
    coded [ERR_INVALID_MESSAGE] with message "No data received" ends the
    source of the sink of the stream; when reading the stream or decoding
    the request throws, that error does.  [handleMessage] then ends as
    the sink ends, so it throws the error when the sink rejects with it.
    In all three cases no lookup function is called and nothing is written
    to the stream. *)
Theorem handleMessage_read_failures
    (incoming : IncomingStreamData) (s : State) :
  let st := stream incoming in
  let read := {| this := this s; trace := trace s ++ [Ev_first st] |} in
  let no_data := errCode "No data received" ERR_INVALID_MESSAGE in
  (stream_first st = Return None →
     handleMessage incoming s = (stream_sink_failed st no_data, read))
  ∧ (∀ e, stream_first st = Throw e →
       handleMessage incoming s = (stream_sink_failed st e, read))
  ∧ (∀ buf e,
       stream_first st = Return (Some buf) →
       FetchRequest_decode buf = Throw e →
       handleMessage incoming s = (stream_sink_failed st e, read))
  ∧ ((∀ e, stream_sink_failed st e = Throw e) →
     (stream_first st = Return None →
        handleMessage incoming s = (Throw no_data, read))
     ∧ (∀ e, stream_first st = Throw e →
          handleMessage incoming s = (Throw e, read))
     ∧ (∀ buf e,
          stream_first st = Return (Some buf) →
          FetchRequest_decode buf = Throw e →
          handleMessage incoming s = (Throw e, read))).
Proof.
  intros st read no_data. subst st read no_data.
  rewrite handleMessage_run. simpl.
  split_and!.
  - by intros ->.
  - by intros e ->.
  - by intros buf e -> ->.
  - intros Hsink. split_and!.
    + intros ->. by rewrite Hsink.
    + intros e ->. by rewrite Hsink.
    + intros buf e -> ->. by rewrite Hsink.
Qed.

(** X7.  One run of [handleMessage] reads the stream once and leaves the
    service as it was.  After the read it calls at most one lookup
    function, the one the registry resolves for the identifier of the
    decoded request, with that identifier; and it writes at most one frame,
    after the lookup. *)
Theorem handleMessage_calls_at_most_once
    (incoming : IncomingStreamData) (s : State) :
  let st := stream incoming in
  ∃ calls,
    (handleMessage incoming s).2
    = {| this := this s; trace := trace s ++ Ev_first st :: calls |}
    ∧ (calls = []
       ∨ (∃ response,
            calls = [Ev_sink st [lp_encode (FetchResponse_encode response)]])
       ∨ ∃ buf request lookup,
           stream_first st = Return (Some buf)
           ∧ FetchRequest_decode buf = Return request
           ∧ _getLookupFunction (this s) (identifier request) = Some lookup
           ∧ (calls = [Ev_lookup lookup (identifier request)]
              ∨ ∃ response,
                  calls = [Ev_lookup lookup (identifier request);
                           Ev_sink st
                             [lp_encode (FetchResponse_encode response)]])).
Proof.
  intros st. subst st. rewrite handleMessage_run. simpl.
  destruct (stream_first _) as [[buf|]|] eqn:Hfirst;
    [|by exists []; split; [|left]..].
  destruct (FetchRequest_decode buf) as [request|] eqn:Hdecode;
    [|by exists []; split; [|left]].
  rewrite respond_run.
  destruct (_getLookupFunction _ _) as [lookup|] eqn:Hlookup.
  - destruct (invoke _ _) as [[value|]|]; simpl.
    all: eexists; split; [by flat_trace|].
    all: right; right; exists buf, request, lookup; split_and!; try done.
    all: first [by left | right; by eexists].
  - simpl. eexists. split; [by flat_trace|]. right. left. by eexists.
Qed.

(** *** More on the outbound flow *)

(** X8.  Once the connection is there, [fetch] throws unchanged what
    opening the stream, the exchange on the stream or decoding the
    response throws.  When the stream does not open, no call uses or
    closes a stream. *)
Theorem fetch_failures_propagate
    (peer : PeerId) (key : string) (options : AbortOptions) (s : State)
    (conn : Connection) :
  let sig := fetch_signal (this s) options in
  openConnection peer options = Return conn →
  (∀ e, newStream conn [protocol (this s)] sig = Throw e →
     (fetch peer key options s).1 = Throw e
     ∧ ∃ calls,
         trace (fetch peer key options s).2 = trace s ++ calls
         ∧ Forall (λ ev, is_stream_use ev = false) calls)
  ∧ (∀ st e,
       newStream conn [protocol (this s)] sig = Return st →
       duplex_first st sig (request_frames key) = Throw e →
       (fetch peer key options s).1 = Throw e)
  ∧ (∀ st buf e,
       newStream conn [protocol (this s)] sig = Return st →
       duplex_first st sig (request_frames key) = Return (Some buf) →
       FetchResponse_decode buf = Throw e →
       (fetch peer key options s).1 = Throw e).
Proof.
  intros sig Hconn. rewrite fetch_run, Hconn. simpl. fold sig.
  split_and!.
  - intros e Hopen. rewrite Hopen. split; [done|].
    eexists. split; [done|].
    unfold fetch_calls. rewrite Hconn. fold sig. rewrite Hopen.
    destruct (signal options); by each_call.
  - by intros st e -> ->.
  - intros st buf e -> -> Hdecode.
    unfold read_response, mbind, M_bind, await. by rewrite Hdecode.
Qed.

(** X9.  [fetch] reads the protocol and the timeout of the service and
    nothing else of it: it neither needs the service to be started nor
    looks at the registry, and it leaves the service as it was. *)
Theorem fetch_needs_no_started_service
    (peer : PeerId) (key : string) (options : AbortOptions)
    (s s' : State) :
  protocol (this s) = protocol (this s') →
  timeout (init (this s)) = timeout (init (this s')) →
  (fetch peer key options s).1 = (fetch peer key options s').1
  ∧ this (fetch peer key options s).2 = this s
  ∧ ∃ calls,
      trace (fetch peer key options s).2 = trace s ++ calls
      ∧ trace (fetch peer key options s').2 = trace s' ++ calls.
Proof.
  intros Hprotocol Htimeout. rewrite !fetch_run. simpl.
  assert (fetch_signal (this s) options = fetch_signal (this s') options)
    as Hsig by (unfold fetch_signal; by rewrite Htimeout).
  split_and!.
  - rewrite Hsig, Hprotocol.
    destruct (openConnection _ _) as [conn|]; [|done]. simpl.
    destruct (newStream _ _ _) as [st|]; [|done].
    destruct (duplex_first _ _ _) as [buf|]; [|done].
    by rewrite (read_response_run buf s s').
  - done.
  - exists (fetch_calls (this s) peer key options). split; [done|].
    unfold fetch_calls. by rewrite Hsig, Hprotocol, Htimeout.
Qed.

(** X10.  The calls of the [finally] block are the last calls of [fetch],
    and they release what the calls before them acquired: every timeout
    controller that was created is cleared, then every stream that was
    opened is closed, and nothing is called after.  There is at most one
    controller and at most one stream, so each is released once. *)
Theorem fetch_cleanup_is_last
    (peer : PeerId) (key : string) (options : AbortOptions) (s : State) :
  ∃ body,
    trace (fetch peer key options s).2
    = trace s ++ body
      ++ (Ev_clear <$> controllers_created body)
      ++ (Ev_close <$> streams_opened body)
    ∧ Forall (λ ev, is_cleanup ev = false) body
    ∧ (length (controllers_created body) ≤ 1)%nat
    ∧ (length (streams_opened body) ≤ 1)%nat
    ∧ (controllers_created body
       = match openConnection peer options, signal options with
         | Return _, None => [{| ms := timeout (init (this s)) |}]
         | _, _ => []
         end)
    ∧ (streams_opened body
       = match openConnection peer options with
         | Return conn =>
             match newStream conn [protocol (this s)]
                     (fetch_signal (this s) options) with
             | Return st => [st]
             | Throw _ => []
             end
         | Throw _ => []
         end).
Proof.
  rewrite fetch_run. simpl. unfold fetch_calls.
  set (sig := fetch_signal (this s) options).
  set (tc := {| ms := timeout (init (this s)) |}).
  destruct (openConnection peer options) as [conn|e].
  - destruct (newStream conn _ _) as [st|e] eqn:Hopen;
      destruct (signal options) as [u|].
    + exists [Ev_openConnection peer options;
              Ev_newStream conn [protocol (this s)] sig (Return st);
              Ev_abortableDuplex st sig;
              Ev_duplex st sig (request_frames key)].
      split_and!; [done|by each_call|simpl; lia..|done|done].
    + exists [Ev_openConnection peer options;
              Ev_new_TimeoutController tc; Ev_setMaxListeners sig;
              Ev_newStream conn [protocol (this s)] sig (Return st);
              Ev_abortableDuplex st sig;
              Ev_duplex st sig (request_frames key)].
      split_and!; [done|by each_call|simpl; lia..|done|done].
    + exists [Ev_openConnection peer options;
              Ev_newStream conn [protocol (this s)] sig (Throw e)].
      split_and!; [done|by each_call|simpl; lia..|done|done].
    + exists [Ev_openConnection peer options;
              Ev_new_TimeoutController tc; Ev_setMaxListeners sig;
              Ev_newStream conn [protocol (this s)] sig (Throw e)].
      split_and!; [done|by each_call|simpl; lia..|done|done].
  - exists [Ev_openConnection peer options].
    split_and!; [done|by each_call|simpl; lia..|done|done].
Qed.

(** X11.  [fetch] returns a value only when the response that was read
    has status [OK] and that value as data, and it returns [null] only
    when the response has status [NOT_FOUND]. *)
Theorem fetch_result_comes_from_response
    (peer : PeerId) (key : string) (options : AbortOptions) (s : State)
    (result : option Uint8Array) :
  (fetch peer key options s).1 = Return result →
  ∃ conn st buf response,
    openConnection peer options = Return conn
    ∧ newStream conn [protocol (this s)] (fetch_signal (this s) options)
      = Return st
    ∧ duplex_first st (fetch_signal (this s) options) (request_frames key)
      = Return (Some buf)
    ∧ FetchResponse_decode buf = Return response
    ∧ match result with
      | Some value => status response = OK ∧ data response = value
      | None => status response = NOT_FOUND
      end.
Proof.
  rewrite fetch_run. simpl.
  destruct (openConnection _ _) as [conn|] eqn:Hconn; [|done].
  destruct (newStream _ _ _) as [st|] eqn:Hopen; [|done].
  destruct (duplex_first _ _ _) as [[buf|]|] eqn:Hduplex; [|done..].
  destruct (FetchResponse_decode buf) as [response|] eqn:Hdecode.
  - rewrite (read_response_decoded _ _ _ Hdecode).
    intros Hresult. exists conn, st, buf, response.
    split_and!; try done.
    repeat case_decide; by simplify_eq.
  - unfold read_response, mbind, M_bind, await. by rewrite Hdecode.
Qed.

(** X12.  A requester and a responder that share the codecs: the
    responder receives the request [fetch] sent for the key, and the
    requester receives what [handleMessage] wrote.  Then [fetch] returns
    the value the responder's lookup function returned, returns [null]
    when that function returned [null], and throws the error coded
    [ERR_INVALID_PARAMETERS] when the responder has no lookup function for
    the key. *)
Theorem fetch_end_to_end
    (peer : PeerId) (key : string) (options : AbortOptions)
    (requester : State) (conn : Connection) (st : Stream)
    (incoming : IncomingStreamData) (responder : State) :
  let sig := fetch_signal (this requester) options in
  let request := {| identifier := key |} in
  NoDup [OK; NOT_FOUND; ERROR] →
  openConnection peer options = Return conn →
  newStream conn [protocol (this requester)] sig = Return st →
  stream_first (stream incoming) = Return (Some (FetchRequest_encode request)) →
  FetchRequest_decode (FetchRequest_encode request) = Return request →
  (∀ response,
     Ev_sink (stream incoming) [lp_encode (FetchResponse_encode response)]
       ∈ trace (handleMessage incoming responder).2 →
     duplex_first st sig (request_frames key)
     = Return (Some (FetchResponse_encode response))
     ∧ FetchResponse_decode (FetchResponse_encode response)
       = Return response) →
  (_getLookupFunction (this responder) key = None →
     (fetch peer key options requester).1
     = Throw (errCode
                ("Error in fetch protocol response: "
                 +:+ TextDecoder_decode
                       (TextEncoder_encode
                          ("No lookup function registered for key: "
                           +:+ key)))
                ERR_INVALID_PARAMETERS))
  ∧ (∀ lookup value,
       _getLookupFunction (this responder) key = Some lookup →
       invoke lookup key = Return (Some value) →
       (fetch peer key options requester).1 = Return (Some value))
  ∧ (∀ lookup,
       _getLookupFunction (this responder) key = Some lookup →
       invoke lookup key = Return None →
       (fetch peer key options requester).1 = Return None).
Proof.
  intros sig request Hdistinct Hconn Hopen Hfirst Hrequest Hnet.
  assert (OK ≠ NOT_FOUND ∧ OK ≠ ERROR ∧ NOT_FOUND ≠ ERROR) as (H1 & H2 & H3).
  { apply NoDup_cons in Hdistinct as [Hok Hdistinct].
    apply NoDup_cons in Hdistinct as [Hnf _].
    split_and!; intros Heq.
    - apply Hok. rewrite Heq. repeat constructor.
    - apply Hok. rewrite Heq. repeat constructor.
    - apply Hnf. rewrite Heq. repeat constructor. }
  assert (∀ response,
    Ev_sink (stream incoming) [lp_encode (FetchResponse_encode response)]
      ∈ trace (handleMessage incoming responder).2 →
    (fetch peer key options requester).1
    = if decide (status response = OK) then Return (Some (data response))
      else if decide (status response = NOT_FOUND) then Return None
      else if decide (status response = ERROR) then
        Throw (errCode ("Error in fetch protocol response: "
                        +:+ TextDecoder_decode (data response))
                 ERR_INVALID_PARAMETERS)
      else Throw (errCode "Unknown response status" ERR_INVALID_MESSAGE))
    as Hanswer.
  { intros response Hsink. destruct (Hnet response Hsink) as [Hduplex Hdecode].
    rewrite fetch_run, Hconn. simpl. fold sig. rewrite Hopen, Hduplex.
    by apply read_response_decoded. }
  pose proof (handleMessage_decoded incoming responder _ _ Hfirst Hrequest)
    as Hrun.
  cbv zeta in Hrun. rewrite respond_run in Hrun. simpl in Hrun.
  split_and!.
  - intros Hnone. rewrite Hnone in Hrun. rewrite (Hanswer
      {| status := ERROR;
         data := TextEncoder_encode
                   ("No lookup function registered for key: " +:+ key) |}).
    + simpl. by repeat case_decide.
    + rewrite Hrun. simpl. rewrite !elem_of_app. right.
      by apply list_elem_of_singleton.
  - intros lookup value Hlookup Hvalue. rewrite Hlookup, Hvalue in Hrun.
    rewrite (Hanswer {| status := OK; data := value |}).
    + simpl. by repeat case_decide.
    + rewrite Hrun. simpl. rewrite !elem_of_app. right.
      by apply list_elem_of_singleton.
  - intros lookup Hlookup Hvalue. rewrite Hlookup, Hvalue in Hrun.
    rewrite (Hanswer {| status := NOT_FOUND; data := [] |}).
    + simpl. by repeat case_decide.
    + rewrite Hrun. simpl. rewrite !elem_of_app. right.
      by apply list_elem_of_singleton.
Qed.

(** *** More on the lifecycle *)

(** X13.  [start] hands the registrar the protocol of the service and the
    stream limits of its configuration, whether the service is started or
    not.  When the registrar accepts both calls, [isStarted] is [true]
    after [start] and [false] after [stop]; [stop] unhandles the protocol
    [start] handled, and the two calls change nothing but the flag. *)
Theorem start_then_stop (s : State) :
  let self := this s in
  let options :=
    {| opt_maxInboundStreams := maxInboundStreams (init self);
       opt_maxOutboundStreams := maxOutboundStreams (init self) |} in
  trace (start s).2 = trace s ++ [Ev_handle (protocol self) options]
  ∧ (registrar_handle (protocol self) options = Return tt →
     isStarted (start s).2 = (Return true, (start s).2)
     ∧ (registrar_unhandle (protocol self) = Return tt →
        let stopped := (stop (start s).2).2 in
        isStarted stopped = (Return false, stopped)
        ∧ this stopped = with_started self false
        ∧ trace stopped
          = trace s ++ [Ev_handle (protocol self) options;
                        Ev_unhandle (protocol self)])).
Proof.
  intros self options. subst self options.
  unfold start, stop, isStarted, mbind, M_bind, mret, M_ret, get_this,
    emit, await, set_started.
  simpl. split.
  - by destruct (registrar_handle _ _).
  - intros ->. simpl. split; [done|]. intros ->. simpl.
    split_and!; [done..|]. by flat_trace.
Qed.

(** *** What the methods leave alone *)

Lemma registry_call_frame (c : RegistryCall) (s : State) :
  ∃ m, (registry_call c s).2
       = {| this := with_lookupFunctions (this s) m; trace := trace s |}.
Proof.
  destruct c as [prefix lookup|prefix guard]; simpl.
  - destruct (Map_has (lookupFunctions (this s)) prefix) eqn:Hhas.
    + rewrite registerLookupFunction_present by done.
      exists (lookupFunctions (this s)). by rewrite with_lookupFunctions_same.
    + rewrite registerLookupFunction_absent by done. by eexists.
  - destruct guard as [lookup|]; [|by eexists].
    destruct (decide (Map_get (lookupFunctions (this s)) prefix
                      = Some lookup)) as [Heq|Hne].
    + rewrite unregisterLookupFunction_same by done. by eexists.
    + rewrite unregisterLookupFunction_other by done.
      exists (lookupFunctions (this s)). by rewrite with_lookupFunctions_same.
Qed.

Lemma lifecycle_frame (s : State) :
  (∃ b, this (start s).2 = with_started (this s) b)
  ∧ (∃ b, this (stop s).2 = with_started (this s) b)
  ∧ (isStarted s).2 = s.
Proof.
  unfold start, stop, isStarted, mbind, M_bind, mret, M_ret, get_this,
    emit, await, set_started.
  simpl. split_and!; [| |done].
  - destruct (registrar_handle _ _); simpl; [by eexists|].
    exists (started (this s)). by destruct s as [[] ?].
  - destruct (registrar_unhandle _); simpl; [by eexists|].
    exists (started (this s)). by destruct s as [[] ?].
Qed.

Lemma service_call_fields (c : ServiceCall) (s : State) :
  protocol (this (service_call c s)) = protocol (this s)
  ∧ init (this (service_call c s)) = init (this s)
  ∧ (Map_wf (lookupFunctions (this s)) →
     Map_wf (lookupFunctions (this (service_call c s)))).
Proof.
  destruct (lifecycle_frame s) as ([b1 Hstart] & [b2 Hstop] & Hquery).
  destruct c as [c| | | |peer key options|incoming]; cbn [service_call].
  - destruct (registry_call_frame c s) as [m Hm].
    split_and!; [by rewrite Hm..|]. apply registry_call_wf.
  - by rewrite Hstart.
  - by rewrite Hstop.
  - by rewrite Hquery.
  - by rewrite fetch_run.
  - by rewrite stream_handler_this.
Qed.

(** X14.  Whatever is called on a service after its construction, in any
    order and whether the calls throw or not, its protocol and its
    configuration stay those of the constructor and no prefix is
    registered twice; so [start] always handles the protocol the
    constructor built, with the stream limits of the configuration. *)
Theorem service_keeps_protocol_and_configuration
    (i : FetchServiceInit) (t : list Event) (calls : list ServiceCall) :
  let s := service_calls calls {| this := constructor i; trace := t |} in
  protocol (this s) = protocol (constructor i)
  ∧ init (this s) = i
  ∧ NoDup (Map_keys (lookupFunctions (this s)))
  ∧ trace (start s).2
    = trace s ++ [Ev_handle (protocol (constructor i))
                    {| opt_maxInboundStreams := maxInboundStreams i;
                       opt_maxOutboundStreams := maxOutboundStreams i |}].
Proof.
  intros s.
  assert (∀ s0, protocol (this s0) = protocol (constructor i) →
                init (this s0) = i →
                Map_wf (lookupFunctions (this s0)) →
                let s1 := service_calls calls s0 in
                protocol (this s1) = protocol (constructor i)
                ∧ init (this s1) = i
                ∧ Map_wf (lookupFunctions (this s1))) as Hinv.
  { induction calls as [|c calls IH]; intros s0 Hp Hi Hwf; [done|].
    destruct (service_call_fields c s0) as (Hp' & Hi' & Hwf').
    apply IH; [by rewrite Hp'|by rewrite Hi'|by apply Hwf']. }
  destruct (Hinv {| this := constructor i; trace := t |})
    as (Hp & Hi & Hwf); [done|done|apply NoDup_nil_2|].
  fold s in Hp, Hi, Hwf. split_and!; [done..|].
  unfold start, mbind, M_bind, get_this, emit, await, set_started. simpl.
  rewrite Hp, Hi. by destruct (registrar_handle _ _).
Qed.

(** X15.  The registry and the lifecycle do not touch each other: a call
    of the registry leaves the flag and the trace as they were and gives
    the same outcome whatever the flag; [start], [stop], [isStarted],
    [fetch] and the stream handler leave the registry as it was, so every
    key resolves after them as before. *)
Theorem registry_and_lifecycle_are_independent (s : State) :
  (∀ c,
     started (this (registry_call c s).2) = started (this s)
     ∧ trace (registry_call c s).2 = trace s
     ∧ ∀ b,
         let flagged :=
           {| this := with_started (this s) b; trace := trace s |} in
         (registry_call c flagged).1 = (registry_call c s).1
         ∧ lookupFunctions (this (registry_call c flagged).2)
           = lookupFunctions (this (registry_call c s).2))
  ∧ (∀ c,
       match c with
       | Call_registry _ => True
       | _ =>
           lookupFunctions (this (service_call c s))
           = lookupFunctions (this s)
           ∧ ∀ key,
               _getLookupFunction (this (service_call c s)) key
               = _getLookupFunction (this s) key
       end).
Proof.
  split.
  - intros c. destruct (registry_call_frame c s) as [m Hm].
    split_and!; [by rewrite Hm..|]. intros b flagged. subst flagged.
    destruct c as [prefix lookup|prefix [lookup|]]; simpl.
    + unfold registerLookupFunction, mbind, M_bind, get_this. simpl.
      by destruct (Map_has _ _).
    + unfold unregisterLookupFunction, mbind, M_bind, get_this. simpl.
      by case_decide.
    + done.
  - destruct (lifecycle_frame s) as ([b1 Hstart] & [b2 Hstop] & Hquery).
    assert (∀ s', this s' = this s ∨ (∃ b, this s' = with_started (this s) b) →
            lookupFunctions (this s') = lookupFunctions (this s)
            ∧ ∀ key, _getLookupFunction (this s') key
                     = _getLookupFunction (this s) key) as Hsame.
    { intros s' [->|[b ->]]; done. }
    intros [c| | | |peer key options|incoming]; [done|..];
      cbn [service_call].
    all: apply Hsame.
    + right. eauto.
    + right. eauto.
    + left. by rewrite Hquery.
    + left. by rewrite fetch_run.
    + left. apply stream_handler_this.
Qed.

(** *** The constructor and the shape of one [fetch] *)

Lemma string_app_cons (c : Ascii.ascii) (s1 s2 : string) :
  String c s1 +:+ s2 = String c (s1 +:+ s2).
Proof. reflexivity. Qed.

Lemma string_length_app (s1 s2 : string) :
  String.length (s1 +:+ s2) = String.length s1 + String.length s2.
Proof.
  induction s1 as [|c s1 IH]; [done|].
  rewrite string_app_cons. cbn. by rewrite IH.
Qed.

Lemma string_app_inv_tail (s1 s2 tail : string) :
  s1 +:+ tail = s2 +:+ tail → s1 = s2.
Proof.
  revert s2. induction s1 as [|c s1 IH]; intros [|c' s2] Heq.
  - done.
  - apply (f_equal String.length) in Heq.
    rewrite !string_length_app in Heq. cbn in Heq. lia.
  - apply (f_equal String.length) in Heq.
    rewrite !string_length_app in Heq. cbn in Heq. lia.
  - rewrite !string_app_cons in Heq. injection Heq as -> Heq.
    by rewrite (IH _ Heq).
Qed.

(** X16.  A new service is not started and resolves no key.  Its protocol
    is made of the configured prefix, ["libp2p"] when none is configured,
    and two configurations give the same protocol exactly when their
    prefixes, so completed, are the same. *)
Theorem constructor_protocol (i i' : FetchServiceInit) :
  let prefix_of (c : FetchServiceInit) :=
    default "libp2p" (protocolPrefix c) in
  started (constructor i) = false
  ∧ (∀ key, _getLookupFunction (constructor i) key = None)
  ∧ (protocolPrefix i = None →
     protocol (constructor i)
     = "/libp2p/" +:+ PROTOCOL_NAME +:+ "/" +:+ PROTOCOL_VERSION)
  ∧ (protocol (constructor i) = protocol (constructor i')
     ↔ prefix_of i = prefix_of i').
Proof.
  intros prefix_of. subst prefix_of. split_and!; [done|done| |].
  - intros Hnone. unfold constructor. simpl. by rewrite Hnone.
  - unfold constructor. simpl. split; [|by intros ->].
    intros Heq. apply (inj (String.append "/")) in Heq.
    by apply string_app_inv_tail in Heq.
Qed.

(** X17.  One run of [fetch] does not retry: it opens at most one stream
    and makes at most one exchange, on the stream that opened, with the
    signal of the run, sending one frame: the encoded request whose
    identifier is the key. *)
Theorem fetch_does_not_retry
    (peer : PeerId) (key : string) (options : AbortOptions) (s : State) :
  ∃ calls,
    trace (fetch peer key options s).2 = trace s ++ calls
    ∧ (length (filter (λ ev, is_newStream ev = true) calls) ≤ 1)%nat
    ∧ (length (filter (λ ev, is_exchange ev = true) calls) ≤ 1)%nat
    ∧ ∀ st sig written,
        Ev_duplex st sig written ∈ calls →
        sig = fetch_signal (this s) options
        ∧ written = [lp_encode (FetchRequest_encode {| identifier := key |})]
        ∧ ∃ conn,
            openConnection peer options = Return conn
            ∧ newStream conn [protocol (this s)] sig = Return st.
Proof.
  exists (fetch_calls (this s) peer key options).
  split; [by rewrite fetch_run|].
  unfold fetch_calls, request_frames.
  destruct (openConnection peer options) as [conn|e].
  - destruct (newStream conn _ _) as [st|e] eqn:Hopen;
      destruct (signal options) as [u|] eqn:Hsignal.
    all: split_and!; [simpl; lia..|].
    all: intros st' sig written Hin.
    all: repeat (apply elem_of_cons in Hin as [Hin|Hin]; simplify_eq/=).
    all: try by apply elem_of_nil in Hin.
    all: split_and!; [done..|]; by exists conn.
  - split_and!; [simpl; lia..|]. intros st sig written Hin.
    apply elem_of_cons in Hin as [Hin|Hin]; [done|].
    by apply elem_of_nil in Hin.
Qed.

End Properties.

(** ** Properties across environments *)

(** X18.  What [setMaxListeners] does makes no difference to [fetch]: with
    any other [setMaxListeners], throwing or not, [fetch] returns or throws
    the same and makes the same calls. *)
Theorem fetch_ignores_setMaxListeners
    {imports : Imports} {env : Environment}
    (f : AbortSignal → Outcome unit)
    (peer : PeerId) (key : string) (options : AbortOptions) (s : State) :
  fetch (env := with_setMaxListeners f) peer key options s
  = fetch peer key options s.
Proof.
  rewrite (fetch_run (env := with_setMaxListeners f)).
  by rewrite (fetch_run (env := env)).
Qed.

(** ** The theorems at the sample world *)

#[local] Existing Instances Sample.imports Sample.environment.

Lemma getLookupFunction_first_registered_wins_witness :
  lookupFunctions (this Sample.serving)
  = [] ++ ("user/", 1) :: [("fail/", 2)]
  ∧ startsWith "user/42" "user/" = true
  ∧ _getLookupFunction (this Sample.serving) "user/42" = Some 1.
Proof.
  split_and!; [reflexivity..|].
  apply (proj1 (getLookupFunction_first_registered_wins
                  (imports := Sample.imports)
                  (this Sample.serving) "user/42")
           [] "user/" 1 [("fail/", 2)]).
  - reflexivity.
  - reflexivity.
  - intros e He. by apply elem_of_nil in He.
Defined.

Lemma registerLookupFunction_exclusive_witness :
  Map_has (lookupFunctions (this Sample.serving)) "user/" = true
  ∧ registerLookupFunction "user/" 3 Sample.serving
    = (Throw (already_registered "user/"), Sample.serving).
Proof.
  split; [reflexivity|].
  apply (proj1 (registerLookupFunction_exclusive
                  (imports := Sample.imports) "user/" 3 Sample.serving)).
  reflexivity.
Defined.

Lemma unregisterLookupFunction_guarded_witness :
  Map_get (lookupFunctions (this Sample.serving)) "user/" ≠ Some 7
  ∧ unregisterLookupFunction "user/" (Some 7) Sample.serving
    = (Return tt, Sample.serving).
Proof.
  assert (Map_get (lookupFunctions (this Sample.serving)) "user/" ≠ Some 7)
    as Hother by (vm_compute; discriminate).
  split; [exact Hother|].
  exact (proj1 (unregisterLookupFunction_guarded
                  (imports := Sample.imports) "user/" Sample.serving)
           7 Hother).
Defined.

Lemma started_changes_after_registrar_success_witness :
  Sample.handle (protocol (this Sample.stranger))
    {| opt_maxInboundStreams := 1; opt_maxOutboundStreams := 1 |}
  = Throw (Sample.failure "no such protocol")
  ∧ started (this Sample.stranger) = false
  ∧ (Sample.run_start Sample.stranger).1
    = Throw (Sample.failure "no such protocol")
  ∧ started (this (Sample.run_start Sample.stranger).2) = false.
Proof.
  split_and!; [reflexivity..| |].
  all: apply (proj1 (started_changes_after_registrar_success
                       (env := Sample.environment) Sample.stranger)
                (Sample.failure "no such protocol"));
    reflexivity.
Defined.

Lemma fetch_maps_response_status_witness :
  NoDup [0; 1; 2]
  ∧ Sample.dial 1 Sample.no_signal = Return 1
  ∧ Sample.open_stream 1 [protocol (this Sample.fresh)]
      (fetch_signal (this Sample.fresh) Sample.no_signal) = Return 1
  ∧ Sample.reply 1 (fetch_signal (this Sample.fresh) Sample.no_signal)
      [Sample.frame (Sample.encode_request {| identifier := "user/42" |})]
    = Return (Some [x00; x01; x02; x03])
  ∧ Sample.decode_response [x00; x01; x02; x03]
    = Return {| status := 0; data := [x01; x02; x03] |}
  ∧ (Sample.run_fetch 1 "user/42" Sample.no_signal Sample.fresh).1
    = Return (Some [x01; x02; x03]).
Proof.
  assert (NoDup [0; 1; 2]) as Hdistinct by compute_done.
  split_and!; [exact Hdistinct|reflexivity..|].
  refine (proj1 (proj2 (fetch_maps_response_status
                          (env := Sample.environment)
                          1 "user/42" Sample.no_signal Sample.fresh 1 1
                          Hdistinct eq_refl eq_refl)
                   [x00; x01; x02; x03]
                   {| status := 0; data := [x01; x02; x03] |}
                   eq_refl eq_refl) eq_refl).
Defined.

Lemma handleMessage_builds_one_response_witness :
  Sample.arrival 1 = Return (Some (String.list_byte_of_string "user/42"))
  ∧ Sample.decode_request (String.list_byte_of_string "user/42")
    = Return {| identifier := "user/42" |}
  ∧ _getLookupFunction (this Sample.serving) "user/42" = Some 1
  ∧ Sample.call 1 "user/42" = Return (Some [x01; x02; x03])
  ∧ Sample.run_handleMessage (Sample.inbound 1) Sample.serving
    = (Return tt,
       {| this := this Sample.serving;
          trace := [Ev_first 1; Ev_lookup 1 "user/42";
                    Ev_sink 1 [[x04; x00; x01; x02; x03]]] |}).
Proof.
  split_and!; [reflexivity..|].
  refine (proj2 (proj1 (proj2 (handleMessage_builds_one_response
                                 (env := Sample.environment)
                                 (Sample.inbound 1) Sample.serving
                                 (String.list_byte_of_string "user/42")
                                 {| identifier := "user/42" |}
                                 eq_refl eq_refl))
                   1 [x01; x02; x03] eq_refl eq_refl)).
Defined.

Lemma lookup_failure_is_left_to_the_sink_witness :
  Sample.arrival 4 = Return (Some (String.list_byte_of_string "fail/1"))
  ∧ Sample.decode_request (String.list_byte_of_string "fail/1")
    = Return {| identifier := "fail/1" |}
  ∧ _getLookupFunction (this Sample.serving) "fail/1" = Some 2
  ∧ Sample.call 2 "fail/1" = Throw (Sample.failure "lookup failed")
  ∧ Sample.sink_on_failure 4 (Sample.failure "lookup failed")
    = Throw (Sample.failure "lookup failed")
  ∧ Sample.run_handleMessage (Sample.inbound 4) Sample.serving
    = (Throw (Sample.failure "lookup failed"),
       {| this := this Sample.serving;
          trace := [Ev_first 4; Ev_lookup 2 "fail/1"] |})
  ∧ Sample.run_stream_handler (Sample.inbound 4) Sample.serving
    = (Return tt,
       {| this := this Sample.serving;
          trace := [Ev_first 4; Ev_lookup 2 "fail/1";
                    Ev_log_error (Sample.failure "lookup failed");
                    Ev_close 4] |}).
Proof.
  split_and!; [reflexivity..| |].
  - refine (proj1 (proj1 (proj2 (lookup_failure_is_left_to_the_sink
                     (env := Sample.environment)
                     (Sample.inbound 4) Sample.serving
                     (String.list_byte_of_string "fail/1")
                     {| identifier := "fail/1" |} 2
                     (Sample.failure "lookup failed")
                     eq_refl eq_refl eq_refl eq_refl)) eq_refl)).
  - refine (proj2 (proj1 (proj2 (lookup_failure_is_left_to_the_sink
                     (env := Sample.environment)
                     (Sample.inbound 4) Sample.serving
                     (String.list_byte_of_string "fail/1")
                     {| identifier := "fail/1" |} 2
                     (Sample.failure "lookup failed")
                     eq_refl eq_refl eq_refl eq_refl)) eq_refl)).
Defined.

(** The failure of a lookup function need not leave [handleMessage]: the
    sink of stream [8] resolves after its source has thrown, so
    [handleMessage] returns. *)
Lemma lookup_failure_swallowed_by_sink :
  Sample.arrival 8 = Return (Some (String.list_byte_of_string "fail/1"))
  ∧ Sample.decode_request (String.list_byte_of_string "fail/1")
    = Return {| identifier := "fail/1" |}
  ∧ _getLookupFunction (this Sample.serving) "fail/1" = Some 2
  ∧ Sample.call 2 "fail/1" = Throw (Sample.failure "lookup failed")
  ∧ Sample.run_handleMessage (Sample.inbound 8) Sample.serving
    = (Return tt,
       {| this := this Sample.serving;
          trace := [Ev_first 8; Ev_lookup 2 "fail/1"] |})
  ∧ (Sample.run_handleMessage (Sample.inbound 8) Sample.serving).1
    ≠ Throw (Sample.failure "lookup failed").
Proof.
  split_and!; [reflexivity..|]. vm_compute. discriminate.
Qed.

Lemma fetch_always_cleans_up_witness :
  let tc := {| ms := 10000 |} in
  let sig := signal_of_controller tc in
  let before :=
    [Ev_openConnection 6 Sample.no_signal; Ev_new_TimeoutController tc;
     Ev_setMaxListeners sig] in
  let opened := Ev_newStream 6 ["/libp2p/fetch/0.0.1"] sig (Return 6) in
  let rest :=
    [Ev_abortableDuplex 6 sig;
     Ev_duplex 6 sig [Sample.frame (String.list_byte_of_string "user/42")];
     Ev_clear tc; Ev_close 6] in
  (Sample.run_fetch 6 "user/42" Sample.no_signal Sample.fresh).1
  = Throw (Sample.failure "The operation was aborted")
  ∧ trace (Sample.run_fetch 6 "user/42" Sample.no_signal Sample.fresh).2
    = before ++ opened :: rest
  ∧ Ev_clear tc ∈ [Ev_setMaxListeners sig] ++ opened :: rest
  ∧ Ev_close 6 ∈ rest.
Proof.
  intros tc sig before opened rest. split_and!; [reflexivity..| |].
  all: destruct (fetch_always_cleans_up (env := Sample.environment)
                   6 "user/42" Sample.no_signal Sample.fresh)
         as (calls & Htrace & Htimer & Hstream).
  - apply (Htimer (take 1 before) tc).
    symmetry. exact Htrace.
  - apply (Hstream before 6 ["/libp2p/fetch/0.0.1"] sig 6 rest).
    symmetry. exact Htrace.
Defined.

Lemma fetch_signal_is_callers_or_timers_witness :
  signal (Sample.with_signal 8) = Some 8
  ∧ Sample.dial 3 (Sample.with_signal 8) = Return 3
  ∧ Sample.open_stream 3 ["/libp2p/fetch/0.0.1"] (signal_of_caller 8)
    = Return 3
  ∧ ∃ calls,
      trace (Sample.run_fetch 3 "user/42" (Sample.with_signal 8)
               Sample.fresh).2 = calls
      ∧ Forall (λ ev, event_controller ev = None) calls
      ∧ Forall (λ ev, ∀ sig, event_signal ev = Some sig →
                        sig = signal_of_caller 8) calls
      ∧ Ev_abortableDuplex 3 (signal_of_caller 8) ∈ calls
      ∧ Ev_duplex 3 (signal_of_caller 8)
          [Sample.frame (String.list_byte_of_string "user/42")] ∈ calls.
Proof.
  split_and!; [reflexivity..|].
  destruct (fetch_signal_is_callers_or_timers (env := Sample.environment)
              3 "user/42" (Sample.with_signal 8) Sample.fresh)
    as (calls & Htrace & Hcaller & _).
  exists calls. destruct (Hcaller 8 eq_refl) as (Hnone & Hsig & Hopened).
  destruct (Hopened 3 eq_refl) as (_ & Hstream).
  destruct (Hstream 3 eq_refl) as (_ & Hwrapped & Hpiped).
  split_and!; [exact Htrace|exact Hnone|exact Hsig|exact Hwrapped
              |exact Hpiped].
Defined.

Lemma fetch_opens_connection_before_timer_witness :
  Sample.dial 0 Sample.no_signal = Throw (Sample.failure "unreachable")
  ∧ trace (Sample.run_fetch 0 "user/42" Sample.no_signal Sample.fresh).2
    = [Ev_openConnection 0 Sample.no_signal]
  ∧ (Sample.run_fetch 0 "user/42" Sample.no_signal Sample.fresh).1
    = Throw (Sample.failure "unreachable").
Proof.
  split; [reflexivity|].
  destruct (fetch_opens_connection_before_timer (env := Sample.environment)
              0 "user/42" Sample.no_signal Sample.fresh)
    as (rest & Htrace & _ & Hthrow & _).
  destruct (Hthrow (Sample.failure "unreachable") eq_refl) as [-> Hresult].
  split; [exact Htrace|exact Hresult].
Defined.

Lemma register_then_unregister_restores_witness :
  Map_has (lookupFunctions (this Sample.fresh)) "user/" = false
  ∧ unregisterLookupFunction "user/" (Some 1)
      (registerLookupFunction "user/" 1 Sample.fresh).2
    = (Return tt, Sample.fresh).
Proof.
  split; [reflexivity|].
  apply (register_then_unregister_restores (imports := Sample.imports)
           "user/" 1 Sample.fresh (Some 1)).
  - reflexivity.
  - by right.
Defined.

Lemma fetch_failures_propagate_witness :
  Sample.dial 6 Sample.no_signal = Return 6
  ∧ Sample.open_stream 6 [protocol (this Sample.fresh)]
      (fetch_signal (this Sample.fresh) Sample.no_signal) = Return 6
  ∧ Sample.reply 6 (fetch_signal (this Sample.fresh) Sample.no_signal)
      (request_frames "user/42")
    = Throw (Sample.failure "The operation was aborted")
  ∧ (Sample.run_fetch 6 "user/42" Sample.no_signal Sample.fresh).1
    = Throw (Sample.failure "The operation was aborted").
Proof.
  split_and!; [reflexivity..|].
  refine (proj1 (proj2 (fetch_failures_propagate
                          (env := Sample.environment)
                          6 "user/42" Sample.no_signal Sample.fresh 6
                          eq_refl))
            6 (Sample.failure "The operation was aborted")
            eq_refl eq_refl).
Defined.

Lemma fetch_needs_no_started_service_witness :
  protocol (this Sample.fresh) = protocol (this Sample.serving)
  ∧ timeout (init (this Sample.fresh))
    = timeout (init (this Sample.serving))
  ∧ (Sample.run_fetch 2 "user/99" (Sample.with_signal 8) Sample.fresh).1
    = (Sample.run_fetch 2 "user/99" (Sample.with_signal 8)
         Sample.serving).1.
Proof.
  split_and!; [reflexivity..|].
  refine (proj1 (fetch_needs_no_started_service
                   (env := Sample.environment)
                   2 "user/99" (Sample.with_signal 8)
                   Sample.fresh Sample.serving eq_refl eq_refl)).
Defined.

Lemma fetch_result_comes_from_response_witness :
  (Sample.run_fetch 1 "user/42" Sample.no_signal Sample.fresh).1
  = Return (Some [x01; x02; x03])
  ∧ ∃ buf response,
      Sample.reply 1 (fetch_signal (this Sample.fresh) Sample.no_signal)
        (request_frames "user/42") = Return (Some buf)
      ∧ Sample.decode_response buf = Return response
      ∧ status response = 0
      ∧ data response = [x01; x02; x03].
Proof.
  split; [reflexivity|].
  destruct (fetch_result_comes_from_response
              (env := Sample.environment)
              1 "user/42" Sample.no_signal Sample.fresh
              (Some [x01; x02; x03]) eq_refl)
    as (conn & st & buf & response & Hconn & Hopen & Hreply & Hdecode
        & Hstatus & Hdata).
  injection Hconn as <-. injection Hopen as <-.
  exists buf, response. split_and!; [exact Hreply|exact Hdecode|
                                     exact Hstatus|exact Hdata].
Defined.

Lemma fetch_end_to_end_witness :
  NoDup [0; 1; 2]
  ∧ Sample.arrival 1
    = Return (Some (Sample.encode_request {| identifier := "user/42" |}))
  ∧ _getLookupFunction (this Sample.serving) "user/42" = Some 1
  ∧ Sample.call 1 "user/42" = Return (Some [x01; x02; x03])
  ∧ (Sample.run_fetch 1 "user/42" Sample.no_signal Sample.fresh).1
    = Return (Some [x01; x02; x03]).
Proof.
  assert (NoDup [0; 1; 2]) as Hdistinct by compute_done.
  split_and!; [exact Hdistinct|reflexivity..|].
  refine (proj1 (proj2 (fetch_end_to_end
                          (env := Sample.environment)
                          1 "user/42" Sample.no_signal Sample.fresh 1 1
                          (Sample.inbound 1) Sample.serving
                          Hdistinct eq_refl eq_refl eq_refl eq_refl _))
            1 [x01; x02; x03] eq_refl eq_refl).
  intros response Hsink. vm_compute in Hsink.
  repeat (apply elem_of_cons in Hsink as [Hsink|Hsink];
          [try discriminate Hsink|]).
  - injection Hsink as _ Hstatus Hdata. destruct response as [status data].
    simpl in *. subst data.
    destruct status as [|[|[|status]]]; try discriminate Hstatus.
    split; reflexivity.
  - by apply elem_of_nil in Hsink.
Defined.
